(** * Hypertable: DFS broker CLOSE handler, Hyperspace handle callbacks and
      the Hyperspace master's session and lock engine

    The development has two parts.  Part I holds the definitions: a shallow
    embedding of the three C++ translation units

      - [src/cc/DfsBroker/Lib/RequestHandlerClose.cc]
      - [src/cc/Tools/hyperspace2/FileHandleCallback.h]
      - [src/cc/Hyperspace/request/RequestHandlerDestroySession.h]

    and a model of the lock manager and of the session manager, which are
    described by the design document only.  Part II holds the lemmas. *)

From Stdlib Require Import ZArith Lia List String Ascii.
From stdpp Require Import gmap strings list fin_maps.

(* ===================================================================== *)
(** * Part I: definitions                                                 *)
(* ===================================================================== *)

(** ** Machine integers and memory *)

Module Machine.
Local Open Scope Z_scope.

(** [size_t] on the LP64 targets Hypertable is built for. *)
Definition size_t_bits : Z := 64.
Definition SIZE_MODULUS : Z := 2 ^ size_t_bits.

(** Unsigned arithmetic is arithmetic modulo [2 ^ 64]. *)
Definition wrap_size_t (x : Z) : Z := x mod SIZE_MODULUS.
Definition size_sub (a b : Z) : Z := wrap_size_t (a - b).

Definition is_size_t (x : Z) : Prop := 0 <= x < SIZE_MODULUS.
Definition is_uint32 (x : Z) : Prop := 0 <= x < 2 ^ 32.

(** [sizeof(int16_t)] *)
Definition sizeof_int16 : Z := 2.

(** Byte-addressed memory: what a [uint8_t *] reads at an address. *)
Definition Memory : Type := Z -> Z.

Definition load8 (mem : Memory) (addr : Z) : Z := mem addr mod 256.

(** Four bytes in host order (little endian), as [memcpy] into a
    [uint32_t] gives them on the x86 targets. *)
Definition load32 (mem : Memory) (addr : Z) : Z :=
  Z.lor (load8 mem addr)
    (Z.lor (Z.shiftl (load8 mem (addr + 1)) 8)
       (Z.lor (Z.shiftl (load8 mem (addr + 2)) 16)
          (Z.shiftl (load8 mem (addr + 3)) 24))).

(** Unsigned addition, the inverse of [size_sub]. *)
Definition size_add (a b : Z) : Z := wrap_size_t (a + b).

End Machine.

(** ** Common/Error.h *)

Module Error.

(** Modelled from the spec: [Common/Error.h] is not among the sources; the
    design document names the two status codes a CLOSE reply can carry,
    [OK] and [PROTOCOL_ERROR]. *)
Inductive Code : Type :=
| OK
| PROTOCOL_ERROR.

End Error.

(** ** AsyncComm/Serialization.h *)

Module Serialization.
Import Machine.
Local Open Scope Z_scope.

(** What a decoder leaves behind when it succeeds: the advanced buffer
    pointer, the lowered byte count and the decoded value (the three
    in/out parameters of the C++ signature
    [bool decode_int(uint8_t **bufPtr, size_t *remainingPtr, uint32_t *intPtr)]).
    A failed decode is [None]. *)
Record Decoded : Type := mkDecoded {
  next_ptr : Z;
  next_remaining : Z;
  value : Z
}.

Definition Decoder : Type := Memory -> Z -> Z -> option Decoded.

(** Modelled from the spec: [Serialization::decode_int] of
    [AsyncComm/Serialization.h], which is not among the sources.  The
    design document says that a handler "validates field count/bounds" and
    that a truncated payload is a decode failure; the field of a CLOSE
    request is one 32-bit file descriptor.  So the decoder fails when fewer
    than four bytes remain, and otherwise reads four bytes, steps the
    pointer over them and lowers the count by four. *)
Definition decode_int : Decoder :=
  fun mem buf remaining =>
    if remaining <? 4 then None
    else Some {| next_ptr := buf + 4;
                 next_remaining := remaining - 4;
                 value := load32 mem buf |}.

(** What the caller of a decoder can tell: failure, or the value. *)
Definition outcome (r : option Decoded) : option Z := option_map value r.

(** A decoder looks at no byte beyond the [remaining] ones it is handed:
    on two buffers holding the same [remaining] bytes it fails on both or
    decodes the same value from both. *)
Definition bounded (dec : Decoder) : Prop :=
  forall (mem1 mem2 : Memory) (p1 p2 remaining : Z),
    (forall i, 0 <= i < remaining -> mem1 (p1 + i) = mem2 (p2 + i)) ->
    outcome (dec mem1 p1 remaining) = outcome (dec mem2 p2 remaining).

(** Two contracts a decoder of one 32-bit integer may meet.  It fails
    exactly when fewer than four bytes remain; and when four or more remain
    its outcome depends on the first four bytes only, not on the count. *)
Definition needs_four_bytes (dec : Decoder) : Prop :=
  forall (mem : Memory) (buf remaining : Z),
    dec mem buf remaining = None <-> remaining < 4.

Definition reads_four_bytes (dec : Decoder) : Prop :=
  forall (mem1 mem2 : Memory) (p1 p2 r1 r2 : Z),
    4 <= r1 -> 4 <= r2 ->
    (forall i, 0 <= i < 4 -> mem1 (p1 + i) = mem2 (p2 + i)) ->
    outcome (dec mem1 p1 r1) = outcome (dec mem2 p2 r2).

End Serialization.

(** ** DfsBroker/Lib/RequestHandlerClose.cc *)

Module DfsBroker.
Import Machine.
Local Open Scope Z_scope.

(** The two fields of [Event] that [run] reads: [uint8_t *message] and
    [size_t messageLen]. *)
Record Event : Type := mkEvent {
  message : Z;
  messageLen : Z
}.

(** What a run of the handler does to its collaborators, in program
    order. *)
Inductive Action : Type :=
| BrokerClose (fd : Z)                           (* m_broker->close(&cb, fd) *)
| LogError (text : string)                       (* HT_ERROR(text)           *)
| CbError (code : Error.Code) (text : string).   (* cb.error(code, text)     *)

(** A handler computes a result and emits actions. *)
Definition Handler (A : Type) : Type := (A * list Action)%type.

Definition bind {A B : Type} (m : Handler A) (k : A -> Handler B) : Handler B :=
  let '(a, t1) := m in
  let '(b, t2) := k a in
  (b, (t1 ++ t2)%list).

Definition emit (a : Action) : Handler unit := (tt, a :: nil).

Definition trace {A : Type} (m : Handler A) : list Action := snd m.

Declare Scope handler_scope.
Delimit Scope handler_scope with handler.
Notation "c1 ;;; c2" := (bind c1 (fun _ => c2))
  (at level 100, c2 at level 200, right associativity) : handler_scope.

Definition broker_close (fd : Z) : Handler unit := emit (BrokerClose fd).
Definition HT_ERROR (text : string) : Handler unit := emit (LogError text).
Definition cb_error (code : Error.Code) (text : string) : Handler unit :=
  emit (CbError code text).

(** The initialisers of [remaining] and [msgPtr]. *)
Definition remaining_of (ev : Event) : Z :=
  size_sub (messageLen ev) sizeof_int16.

Definition msgPtr_of (ev : Event) : Z := message ev + sizeof_int16.

Section Run.
(** [Serialization::decode_int] is linked in from AsyncComm. *)
Variable decode_int : Serialization.Decoder.

Definition decode_payload (mem : Memory) (ev : Event)
  : option Serialization.Decoded :=
  decode_int mem (msgPtr_of ev) (remaining_of ev).

(** [RequestHandlerClose::run].  The callback [cb] is built from the event
    and answers its sender; [fd] is assigned by a successful decode only;
    the [None] branch is the [abort:] label. *)
Definition run (mem : Memory) (m_event_ptr : Event) : Handler unit :=
  let remaining := size_sub (messageLen m_event_ptr) sizeof_int16 in
  let msgPtr := message m_event_ptr + sizeof_int16 in
  match decode_int mem msgPtr remaining with
  | Some d => broker_close (Serialization.value d)
  | None =>
      (HT_ERROR "Encoding problem with CLOSE message" ;;;
       cb_error Error.PROTOCOL_ERROR "Encoding problem with CLOSE message")%handler
  end.
End Run.

(** Projections of a trace: the file descriptors handed to the broker's
    close primitive, and the error replies sent through the callback. *)
Definition close_calls (t : list Action) : list Z :=
  flat_map (fun a => match a with BrokerClose fd => fd :: nil | _ => nil end) t.

Definition error_replies (t : list Action) : list (Error.Code * string) :=
  flat_map (fun a => match a with CbError c s => (c, s) :: nil | _ => nil end) t.

(** Two events carry the same message when the lengths agree and the
    buffers hold the same [messageLen] bytes. *)
Definition same_message (mem1 mem2 : Memory) (ev1 ev2 : Event) : Prop :=
  messageLen ev1 = messageLen ev2 /\
  forall i, 0 <= i < messageLen ev1 ->
    mem1 (message ev1 + i) = mem2 (message ev2 + i).

(** Two events carry the same payload when the lengths agree and the
    buffers hold the same bytes after the two bytes of the opcode. *)
Definition same_payload (mem1 mem2 : Memory) (ev1 ev2 : Event) : Prop :=
  messageLen ev1 = messageLen ev2 /\
  forall i, 2 <= i < messageLen ev1 ->
    mem1 (message ev1 + i) = mem2 (message ev2 + i).

(** Two events carry the same descriptor when the four bytes after the
    opcode agree. *)
Definition same_descriptor (mem1 mem2 : Memory) (ev1 ev2 : Event) : Prop :=
  forall i, 2 <= i < 6 -> mem1 (message ev1 + i) = mem2 (message ev2 + i).

End DfsBroker.

(** Concrete requests.  The buffer sits at address 4096. *)
Module CloseExamples.
Import Machine DfsBroker.
Local Open Scope Z_scope.

(** A memory that is zero everywhere. *)
Definition zeros : Memory := fun _ => 0.

(** A memory that holds [1] in every byte. *)
Definition ones : Memory := fun _ => 1.

(** Opcode, then the descriptor 7 in four bytes. *)
Definition close7 : Memory :=
  fun a => if a =? 4096 + 2 then 7 else 0.

Definition full_request : Event := {| message := 4096; messageLen := 6 |}.

(** Opcode, then only two of the four bytes of the descriptor. *)
Definition truncated_request : Event := {| message := 4096; messageLen := 4 |}.

(** No bytes at all, not even the opcode. *)
Definition empty_request : Event := {| message := 4096; messageLen := 0 |}.

(** The same six bytes at another address, with other bytes around them. *)
Definition close7_elsewhere : Memory :=
  fun a => if a =? 8192 + 2 then 7
           else if (8192 <=? a) && (a <? 8198) then 0 else 255.

Definition full_request_elsewhere : Event :=
  {| message := 8192; messageLen := 6 |}.

(** The request [close7] under another opcode. *)
Definition close7_other_opcode : Memory :=
  fun a => if a =? 4096 then 255
           else if a =? 4097 then 254
           else if a =? 4096 + 2 then 7 else 0.

(** The request [close7] followed by four more bytes. *)
Definition close7_padded : Memory :=
  fun a => if a =? 4096 + 2 then 7
           else if 4102 <=? a then 9 else 0.

Definition padded_request : Event := {| message := 4096; messageLen := 10 |}.

End CloseExamples.

(** ** Hyperspace: handle callbacks *)

Module HandleCallback.

(** Modelled from the spec: the base class of [Hyperspace/HandleCallback.h],
    which is not among the sources.  "Each Handle registers an
    event-interest mask at open time": the base keeps the mask it is
    constructed with, and that mask is what the handle registers. *)
Record t : Type := mk { m_event_mask : Z }.

Definition new (eventMask : Z) : t := {| m_event_mask := eventMask |}.

Definition get_event_mask (cb : t) : Z := m_event_mask cb.

End HandleCallback.

Module FileHandleCallback.

(** [class FileHandleCallback : public HandleCallback]: the derived class
    adds no data member. *)
Record t : Type := mk { base : HandleCallback.t }.

(** [FileHandleCallback(uint32_t eventMask) : HandleCallback(eventMask) { return; }] *)
Definition new (eventMask : Z) : t :=
  {| base := HandleCallback.new eventMask |}.

(** A call of one of the six virtual methods ([AttrSet], [AttrDel],
    [ChildNodeAdded], [ChildNodeRemoved], [LockAcquired], [LockReleased]),
    with the [std::string name] argument of the four that take one. *)
Inductive Call : Type :=
| CallAttrSet (name : string)
| CallAttrDel (name : string)
| CallChildNodeAdded (name : string)
| CallChildNodeRemoved (name : string)
| CallLockAcquired
| CallLockReleased.

(** [std::endl] writes a newline. *)
Definition endl : string := String (ascii_of_nat 10) EmptyString.

(** The method bodies: what a call appends to [cout].  The stream is taken
    in the state a program starts with: good, with no field width
    pending. *)
Definition invoke (c : Call) (cout : string) : string :=
  match c with
  | CallAttrSet name => cout ++ endl ++ "ATTR SET " ++ name
  | CallAttrDel name => cout ++ endl ++ "ATTR DEL " ++ name
  | CallChildNodeAdded name => cout ++ endl ++ "CHILD NODE ADDED " ++ name
  | CallChildNodeRemoved name => cout ++ endl ++ "CHILD NODE REMOVED " ++ name
  | CallLockAcquired => cout ++ endl ++ "LOCK ACQUIRED"
  | CallLockReleased => cout ++ endl ++ "LOCK RELEASED"
  end%string.

(** What a call prints on an empty stream, and what a sequence of calls
    leaves on [cout]. *)
Definition line (c : Call) : string := invoke c "".

Definition run_calls (cs : list Call) (cout : string) : string :=
  fold_left (fun out c => invoke c out) cs cout.

End FileHandleCallback.

(** ** LockManager: the per-node lock state machine *)

Module LockManager.

(** Modelled from the spec: the lock manager's source is not among the
    sources; this module follows section 4.3 of the design document ("LockManager
    -- lock state machine") and the [Lock] entry of its data model.  A lock
    has a holder-set and an ordered wait-queue of (handle, requested-mode).
    Every holder is recorded with the mode it was granted, so that the
    mode-exclusivity rule is a property to be proved and not a property of
    the representation. *)
Inductive Mode : Type :=
| EXCLUSIVE
| SHARED.

#[global] Instance Mode_eq_dec : EqDecision Mode.
Proof. solve_decision. Defined.

Inductive Status : Type :=
| GRANTED
| PENDING
| DENIED.

Record Lock : Type := mkLock {
  holders : gmap nat Mode;
  wait_queue : list (nat * Mode)
}.

Definition unlocked : Lock := {| holders := ∅; wait_queue := [] |}.

Definition all_shared (hs : gmap nat Mode) : Prop :=
  map_Forall (λ _ m, m = SHARED) hs.

(** Modelled from the spec: the grant rule of [TryLock], "GRANTED if the
    holder-set is empty, or (mode=SHARED and holder-set is all-SHARED)." *)
Definition grantable (mode : Mode) (hs : gmap nat Mode) : bool :=
  bool_decide (hs = ∅)
  || (bool_decide (mode = SHARED) && bool_decide (all_shared hs)).

(** Modelled from the spec: [TryLock(handle_id, mode) -> {GRANTED, PENDING,
    DENIED}].  DENIED: the handle already holds the lock.  PENDING: the
    request conflicts with the holder-set and joins the FIFO wait-queue at
    its tail. *)
Definition try_lock (h : nat) (mode : Mode) (l : Lock) : Status * Lock :=
  if bool_decide (is_Some (holders l !! h)) then (DENIED, l)
  else if grantable mode (holders l)
  then (GRANTED, {| holders := <[h := mode]> (holders l);
                    wait_queue := wait_queue l |})
  else (PENDING, {| holders := holders l;
                    wait_queue := wait_queue l ++ [(h, mode)] |}).

(** The contiguous SHARED requests at the head of a queue, and what
    follows them. *)
Fixpoint shared_prefix (q : list (nat * Mode))
  : list (nat * Mode) * list (nat * Mode) :=
  match q with
  | (h, SHARED) :: q' =>
      let '(g, r) := shared_prefix q' in ((h, SHARED) :: g, r)
  | _ => ([], q)
  end.

(** Modelled from the spec: popping the wait-queue, "all contiguous SHARED
    requests at the queue head are granted together; a single EXCLUSIVE
    request at the head is granted alone." *)
Definition grant_waiters (q : list (nat * Mode))
  : gmap nat Mode * list (nat * Mode) :=
  match q with
  | [] => (∅, [])
  | (h, EXCLUSIVE) :: q' => ({[h := EXCLUSIVE]}, q')
  | (_, SHARED) :: _ => let '(g, r) := shared_prefix q in (list_to_map g, r)
  end.

(** Modelled from the spec: [Release(handle_id)] "removes the handle from
    the holder-set; if the holder-set becomes empty, pops the wait-queue
    head(s)". *)
Definition release (h : nat) (l : Lock) : Lock :=
  let hs := delete h (holders l) in
  if bool_decide (hs = ∅)
  then let '(g, q) := grant_waiters (wait_queue l) in
       {| holders := g; wait_queue := q |}
  else {| holders := hs; wait_queue := wait_queue l |}.

(** Modelled from the spec: cancellation, by which the pending requests of
    a handle leave the wait-queue without being granted. *)
Definition cancel (h : nat) (l : Lock) : Lock :=
  {| holders := holders l;
     wait_queue := filter (λ p, p.1 ≠ h) (wait_queue l) |}.

(** The operations of one node's lock, and a run of them. *)
Inductive Op : Type :=
| TryLock (h : nat) (mode : Mode)
| Release (h : nat).

Definition apply (l : Lock) (op : Op) : Lock :=
  match op with
  | TryLock h mode => (try_lock h mode l).2
  | Release h => release h l
  end.

Definition run (ops : list Op) (l : Lock) : Lock := foldl apply l ops.

(** The states of section 4.3, read off the holder-set. *)
Inductive Held : Type :=
| UNLOCKED
| EXCLUSIVE_HELD
| SHARED_HELD.

Definition state_of (l : Lock) : Held :=
  if bool_decide (holders l = ∅) then UNLOCKED
  else if bool_decide (all_shared (holders l)) then SHARED_HELD
  else EXCLUSIVE_HELD.

(** The mode-exclusivity rule: an EXCLUSIVE holder is the only holder. *)
Definition exclusive_alone (hs : gmap nat Mode) : Prop :=
  ∀ h, hs !! h = Some EXCLUSIVE → ∀ h' m', hs !! h' = Some m' → h' = h.

(** The holder-set is never mixed-mode. *)
Definition single_mode (hs : gmap nat Mode) : Prop :=
  ∀ h1 h2 m1 m2, hs !! h1 = Some m1 → hs !! h2 = Some m2 → m1 = m2.

(** An EXCLUSIVE holder-set has at most one member. *)
Definition exclusive_at_most_one (hs : gmap nat Mode) : Prop :=
  ∀ h, hs !! h = Some EXCLUSIVE → size hs ≤ 1.

(** Requests wait only while somebody holds the lock. *)
Definition no_idle_waiters (l : Lock) : Prop :=
  holders l = ∅ → wait_queue l = [].

End LockManager.

(** ** Master: sessions, handles and the request dispatch *)

Module Master.
Import LockManager.

(** Modelled from the spec: the session manager, the handle table and the
    master's dispatch are not among the sources; this module follows
    sections 2, 3, 4.1, 4.2 and 6 of the design document.  It keeps the
    sessions, the handles, the per-node locks and the set of paths that exist
    in the persistent store.  Notification delivery and ephemeral nodes are
    left to their own components and are not modelled.  The handles a
    session owns are the entries of the handle table that name it. *)
Inductive Liveness : Type :=
| CONNECTED
| EXPIRED
| DESTROYED.

#[global] Instance Liveness_eq_dec : EqDecision Liveness.
Proof. solve_decision. Defined.

Record Session : Type := mkSession {
  lease_deadline : Z;
  liveness : Liveness
}.

(** Open-mode flags: READ, WRITE, LOCK, create semantics, and the CALLBACK
    event-interest mask. *)
Record OpenMode : Type := mkOpenMode {
  om_read : bool;
  om_write : bool;
  om_lock : bool;
  om_create : bool;
  om_event_mask : Z
}.

Record Handle : Type := mkHandle {
  h_session : nat;
  h_path : string;
  h_mode : OpenMode
}.

Record State : Type := mkState {
  sessions : gmap nat Session;
  next_session_id : nat;
  handles : gmap nat Handle;
  next_handle_id : nat;
  locks : gmap string LockManager.Lock;
  nodes : gset string
}.

Definition initial : State :=
  {| sessions := ∅; next_session_id := 0;
     handles := ∅; next_handle_id := 0;
     locks := ∅; nodes := ∅ |}.

Inductive Failure : Type :=
| SessionInvalid
| NodeNotFound.

Inductive KeepaliveStatus : Type :=
| KEEPALIVE_OK
| KEEPALIVE_EXPIRED.

(** The requests of section 6, and the periodic expiry timer. *)
Inductive Request : Type :=
| CreateSession
| Keepalive (session_id : nat)
| Open (session_id : nat) (path : string) (mode : OpenMode)
| Close (handle_id : nat)
| Lock (handle_id : nat) (mode : Mode)
| Release (handle_id : nat)
| DestroySession (session_id : nat)
| ExpireCheck.

Inductive Response : Type :=
| SessionCreated (session_id : nat)
| KeepaliveReply (st : KeepaliveStatus)
| Opened (handle_id : nat)
| Failed (e : Failure)
| LockReply (st : Status)
| Done.

Definition set_sessions (m : gmap nat Session) (s : State) : State :=
  {| sessions := m; next_session_id := next_session_id s;
     handles := handles s; next_handle_id := next_handle_id s;
     locks := locks s; nodes := nodes s |}.

Definition set_locks (m : gmap string LockManager.Lock) (s : State) : State :=
  {| sessions := sessions s; next_session_id := next_session_id s;
     handles := handles s; next_handle_id := next_handle_id s;
     locks := m; nodes := nodes s |}.

(** The session validity check every client request goes through first. *)
Definition connected (s : State) (sid : nat) : bool :=
  match sessions s !! sid with
  | Some ses => bool_decide (liveness ses = CONNECTED)
  | None => false
  end.

(** A node that was never locked is UNLOCKED. *)
Definition lock_of (s : State) (path : string) : LockManager.Lock :=
  default unlocked (locks s !! path).

Definition mark (to : Liveness) (ses : Session) : Session :=
  {| lease_deadline := lease_deadline ses; liveness := to |}.

(** Modelled from the spec: the cleanup cascade shared by expiry and
    [DestroySession].  The sessions in [D] take the liveness [to]; the
    pending lock requests of their handles leave the wait-queues without
    being granted; the locks their handles hold are released, waking the
    waiters; their handles leave the table. *)
Definition retire (D : gset nat) (to : Liveness) (s : State) : State :=
  let dying := map_to_list (filter (λ kv, h_session kv.2 ∈ D) (handles s)) in
  let cancelled :=
    foldr (λ kv lks, alter (cancel kv.1) (h_path kv.2) lks) (locks s) dying in
  let released :=
    foldr (λ kv lks, alter (release kv.1) (h_path kv.2) lks) cancelled dying in
  {| sessions :=
       map_imap (λ sid ses,
                   Some (if bool_decide (sid ∈ D) then mark to ses else ses))
                (sessions s);
     next_session_id := next_session_id s;
     handles := filter (λ kv, h_session kv.2 ∉ D) (handles s);
     next_handle_id := next_handle_id s;
     locks := released;
     nodes := nodes s |}.

(** The sessions whose lease deadline has passed at time [now]. *)
Definition lapsed (now : Z) (s : State) : gset nat :=
  dom (filter (λ kv, liveness kv.2 = CONNECTED ∧ (lease_deadline kv.2 < now)%Z)
              (sessions s)).

Section Dispatch.
(** The configured lease timeout. *)
Variable lease_timeout : Z.

(** Modelled from the spec: [CreateSession() -> session_id] allocates a new
    session, CONNECTED, with a fresh lease deadline. *)
Definition create_session (now : Z) (s : State) : Response * State :=
  let sid := next_session_id s in
  (SessionCreated sid,
   {| sessions := <[sid := {| lease_deadline := now + lease_timeout;
                              liveness := CONNECTED |}]> (sessions s);
      next_session_id := S sid;
      handles := handles s; next_handle_id := next_handle_id s;
      locks := locks s; nodes := nodes s |}).

(** Modelled from the spec: [Keepalive(session_id) -> {OK, EXPIRED}]
    refreshes the deadline of a CONNECTED session, from the time the
    keepalive is processed, and answers EXPIRED for any other id. *)
Definition keepalive (now : Z) (sid : nat) (s : State) : Response * State :=
  if connected s sid
  then (KeepaliveReply KEEPALIVE_OK,
        set_sessions (<[sid := {| lease_deadline := now + lease_timeout;
                                  liveness := CONNECTED |}]> (sessions s)) s)
  else (KeepaliveReply KEEPALIVE_EXPIRED, s).

(** Modelled from the spec: [ExpireCheck()] takes the sessions whose lease
    deadline has passed from CONNECTED to EXPIRED and runs the cascade
    before it returns. *)
Definition expire_check (now : Z) (s : State) : Response * State :=
  (Done, retire (lapsed now s) EXPIRED s).

(** Modelled from the spec: [DestroySession(session_id)], the same cascade
    without the wait for the lease to run out. *)
Definition destroy_session (sid : nat) (s : State) : Response * State :=
  match sessions s !! sid with
  | Some _ => (Done, retire {[sid]} DESTROYED s)
  | None => (Done, s)
  end.

(** Modelled from the spec: [Open(session_id, path, mode) -> handle_id].
    The session validity check comes first, as in the data flow of the
    system overview; then NodeNotFound unless the path exists or the mode
    asks for creation. *)
Definition open (sid : nat) (path : string) (mode : OpenMode) (s : State)
  : Response * State :=
  if negb (connected s sid) then (Failed SessionInvalid, s)
  else if negb (bool_decide (path ∈ nodes s) || om_create mode)
  then (Failed NodeNotFound, s)
  else
    let hid := next_handle_id s in
    (Opened hid,
     {| sessions := sessions s; next_session_id := next_session_id s;
        handles := <[hid := {| h_session := sid; h_path := path;
                               h_mode := mode |}]> (handles s);
        next_handle_id := S hid;
        locks := locks s;
        nodes := {[path]} ∪ nodes s |}).

(** Modelled from the spec: [Close(handle_id)] cancels the pending requests
    of the handle, releases the lock it holds and takes it off the table;
    closing a handle that is not there is a no-op. *)
Definition close (hid : nat) (s : State) : Response * State :=
  match handles s !! hid with
  | None => (Done, s)
  | Some h =>
      (Done,
       {| sessions := sessions s; next_session_id := next_session_id s;
          handles := delete hid (handles s);
          next_handle_id := next_handle_id s;
          locks := alter (λ l, release hid (cancel hid l)) (h_path h) (locks s);
          nodes := nodes s |})
  end.

(** Modelled from the spec: [Lock(handle_id, mode)], with the session
    validity check on the handle's owner; DENIED for a malformed request (no
    such handle, no such node, or the handle already holds the lock). *)
Definition lock (hid : nat) (mode : Mode) (s : State) : Response * State :=
  match handles s !! hid with
  | None => (LockReply DENIED, s)
  | Some h =>
      if negb (connected s (h_session h)) then (Failed SessionInvalid, s)
      else if negb (bool_decide (h_path h ∈ nodes s)) then (LockReply DENIED, s)
      else
        let '(st, l') := try_lock hid mode (lock_of s (h_path h)) in
        (LockReply st, set_locks (<[h_path h := l']> (locks s)) s)
  end.

(** Modelled from the spec: [Release(handle_id)] on the lock of the
    handle's node. *)
Definition release_handle (hid : nat) (s : State) : Response * State :=
  match handles s !! hid with
  | None => (Done, s)
  | Some h =>
      (Done, set_locks (alter (release hid) (h_path h) (locks s)) s)
  end.

(** One request, processed at time [now]. *)
Definition step (now : Z) (req : Request) (s : State) : Response * State :=
  match req with
  | CreateSession => create_session now s
  | Keepalive sid => keepalive now sid s
  | Open sid path mode => open sid path mode s
  | Close hid => close hid s
  | Lock hid mode => lock hid mode s
  | Release hid => release_handle hid s
  | DestroySession sid => destroy_session sid s
  | ExpireCheck => expire_check now s
  end.

(** A run of timed requests, with the state each request met and the
    response it got. *)
Fixpoint exec (reqs : list (Z * Request)) (s : State)
  : list (State * Request * Response) * State :=
  match reqs with
  | [] => ([], s)
  | (now, req) :: rest =>
      let '(resp, s') := step now req s in
      let '(log, s'') := exec rest s' in
      ((s, req, resp) :: log, s'')
  end.
End Dispatch.

(** The session that owns a handle. *)
Definition owner (s : State) (hid : nat) : option nat :=
  h_session <$> handles s !! hid.

(** A request against session [sid] succeeded: an [Open] or a [Keepalive]
    naming the session, or a [Lock] through a handle the session owns, that
    was answered with a handle, OK, GRANTED or PENDING. *)
Definition succeeds_against (sid : nat) (s : State) (req : Request)
  (resp : Response) : Prop :=
  match req, resp with
  | Open sid' _ _, Opened _ => sid' = sid
  | Keepalive sid', KeepaliveReply KEEPALIVE_OK => sid' = sid
  | Lock hid _, LockReply GRANTED => owner s hid = Some sid
  | Lock hid _, LockReply PENDING => owner s hid = Some sid
  | _, _ => False
  end.

(** Identifiers are handed out in increasing order and every handle belongs
    to a CONNECTED session (invariant 2 of the data model). *)
Definition well_formed (s : State) : Prop :=
  (∀ sid, is_Some (sessions s !! sid) → sid < next_session_id s) ∧
  (∀ hid, is_Some (handles s !! hid) → hid < next_handle_id s) ∧
  (∀ hid h, handles s !! hid = Some h → connected s (h_session h) = true).

(** The mode-exclusivity rule on every lock of a lock table. *)
Definition all_exclusive_alone (lks : gmap string LockManager.Lock) : Prop :=
  map_Forall (λ _ l, exclusive_alone (holders l)) lks.

(** The mode-exclusivity rule on the lock of every node. *)
Definition locks_mode_exclusive (s : State) : Prop :=
  ∀ path, exclusive_alone (holders (lock_of s path)).

(** Going from [s] to [s'] tore down session [sid] and nothing else: if
    the session was known it is DESTROYED and none of its handles is left;
    every other session and every handle of another session is as it
    was. *)
Definition torn_down (sid : nat) (s s' : State) : Prop :=
  (∀ ses, sessions s !! sid = Some ses →
     sessions s' !! sid = Some (mark DESTROYED ses)
     ∧ ∀ hid, owner s hid = Some sid → handles s' !! hid = None)
  ∧ (∀ sid', sid' ≠ sid → sessions s' !! sid' = sessions s !! sid')
  ∧ (∀ hid h, handles s !! hid = Some h → h_session h ≠ sid →
       handles s' !! hid = Some h).

(** The session is known and no longer CONNECTED. *)
Definition dead (s : State) (sid : nat) : Prop :=
  ∃ ses, sessions s !! sid = Some ses ∧ liveness ses ≠ CONNECTED.

(** The handle was handed out once and is in the table no more. *)
Definition gone (s : State) (hid : nat) : Prop :=
  handles s !! hid = None ∧ hid < next_handle_id s.

(** What it means for one entry of a run that session [sid], whose handles
    were those of state [s0] when it expired, was not served: the request
    did not succeed against the session, an [Open] naming it failed with
    SessionInvalid, a [Keepalive] naming it was answered EXPIRED, and a
    [Lock] through one of its handles was DENIED. *)
Definition not_served (sid : nat) (s0 : State)
  (entry : State * Request * Response) : Prop :=
  let '(s, req, resp) := entry in
  ¬ succeeds_against sid s req resp
  ∧ (∀ path mode, req = Open sid path mode → resp = Failed SessionInvalid)
  ∧ (req = Keepalive sid → resp = KeepaliveReply KEEPALIVE_EXPIRED)
  ∧ (∀ hid mode, req = Lock hid mode → owner s0 hid = Some sid →
       resp = LockReply DENIED).

End Master.

(** ** Hyperspace/request/RequestHandlerDestroySession.h *)

Module RequestHandlerDestroySession.

(** The two private data members: [Master *m_master] (an address) and
    [uint64_t m_session_id]. *)
Record t : Type := mk {
  m_master : Z;
  m_session_id : Z
}.

(** [RequestHandlerDestroySession(Master *master, uint64_t session_id)
      : m_master(master), m_session_id(session_id) { }] *)
Definition new (master : Z) (session_id : Z) : t :=
  {| m_master := master; m_session_id := session_id |}.

(** The masters of a process, by address. *)
Abbreviation Heap := (gmap Z Master.State).

(** Modelled from the spec: [virtual void run();] is declared in the
    header and defined in a translation unit that is not among the sources.
    The handler serves the design document's [DestroySession(session_id)],
    the "explicit client-initiated teardown": [run] performs it on the
    master [m_master] points to, for the session [m_session_id] names.
    Session ids are the naturals of the master model. *)
Definition run (h : t) (heap : Heap) : Heap :=
  alter (λ s, (Master.destroy_session (Z.to_nat (m_session_id h)) s).2)
        (m_master h) heap.

End RequestHandlerDestroySession.

(** ** Opening a node with a callback *)

Module Client.
Import Master.

(** Modelled from the spec: the client library that opens a node with a
    handle callback is not among the sources.  "Each Handle registers an
    event-interest mask at open time", and the open-mode of a handle
    carries the "CALLBACK event-mask": the mask sent with the [Open] request
    is the one the callback hands out, beside the caller's other flags. *)
Definition open_mode (flags : OpenMode) (cb : FileHandleCallback.t)
  : OpenMode :=
  {| om_read := om_read flags;
     om_write := om_write flags;
     om_lock := om_lock flags;
     om_create := om_create flags;
     om_event_mask :=
       HandleCallback.get_event_mask (FileHandleCallback.base cb) |}.

(** Modelled from the spec: opening a node with a callback is the master's
    [Open(session_id, path, mode)] with that open-mode. *)
Definition open (sid : nat) (path : string) (flags : OpenMode)
  (cb : FileHandleCallback.t) (s : State) : Response * State :=
  Master.open sid path (open_mode flags cb) s.

End Client.

(** Concrete runs of the master, with a lease timeout of ten time units. *)
Module MasterExamples.
Import LockManager Master.

Definition lease : Z := 10.

Definition lock_mode : OpenMode :=
  {| om_read := true; om_write := true; om_lock := true; om_create := true;
     om_event_mask := 0 |}.

(** Session 0 opens "/a" and takes the EXCLUSIVE lock; session 1 opens "/a",
    asks for the EXCLUSIVE lock and keeps its lease alive. *)
Definition before_expiry : State :=
  (exec lease
     [(0%Z, CreateSession); (1%Z, Open 0 "/a" lock_mode);
      (2%Z, Lock 0 EXCLUSIVE);
      (3%Z, CreateSession); (4%Z, Open 1 "/a" lock_mode);
      (5%Z, Lock 1 EXCLUSIVE); (6%Z, Keepalive 1)]
     initial).2.

(** What session 0 tries once its lease has run out. *)
Definition late_requests : list (Z * Request) :=
  [(13%Z, Keepalive 0); (14%Z, Open 0 "/a" lock_mode); (15%Z, Lock 0 SHARED);
   (16%Z, CreateSession); (17%Z, Keepalive 0); (18%Z, Lock 0 EXCLUSIVE)].

(** One master, at address 4096. *)
Definition one_master : gmap Z State := {[ 4096%Z := before_expiry ]}.

(** The state a callback with mask 5 is opened in, by session 1. *)
Definition after_callback_open : Response * State :=
  Client.open 1 "/b" lock_mode (FileHandleCallback.new 5) before_expiry.

End MasterExamples.

(* ===================================================================== *)
(** * Part II: properties                                                 *)
(* ===================================================================== *)

(** ** The CLOSE request handler *)

Section CloseHandler.
Import Machine DfsBroker.
Local Open Scope Z_scope.

Variable decode_int : Serialization.Decoder.

Lemma run_abort_path (mem : Memory) (ev : Event) :
  decode_payload decode_int mem ev = None ->
  run decode_int mem ev =
    (tt, LogError "Encoding problem with CLOSE message"
         :: CbError Error.PROTOCOL_ERROR "Encoding problem with CLOSE message"
         :: nil).
Proof.
  unfold decode_payload, run, msgPtr_of, remaining_of.
  intros Hdec. rewrite Hdec. reflexivity.
Qed.

Lemma run_close_path (mem : Memory) (ev : Event) (d : Serialization.Decoded) :
  decode_payload decode_int mem ev = Some d ->
  run decode_int mem ev = (tt, BrokerClose (Serialization.value d) :: nil).
Proof.
  unfold decode_payload, run, msgPtr_of, remaining_of.
  intros Hdec. rewrite Hdec. reflexivity.
Qed.

(** C1: when the payload of a CLOSE request cannot be decoded, [run] answers
    through the callback with PROTOCOL_ERROR and the literal text
    "Encoding problem with CLOSE message", and the broker's close primitive
    is not called. *)
Theorem C1_decode_failure_replies_protocol_error (mem : Memory) (ev : Event) :
  decode_payload decode_int mem ev = None ->
  error_replies (trace (run decode_int mem ev)) =
    (Error.PROTOCOL_ERROR, "Encoding problem with CLOSE message"%string) :: nil
  /\ close_calls (trace (run decode_int mem ev)) = nil
  /\ forall fd, ~ In (BrokerClose fd) (trace (run decode_int mem ev)).
Proof.
  intros Hdec. rewrite (run_abort_path mem ev Hdec). cbn.
  repeat split.
  intros fd [Hin | [Hin | []]]; discriminate Hin.
Qed.

(** C2: when the payload decodes, [run] calls one filesystem primitive, the
    broker's close, with the decoded file descriptor, and sends no
    PROTOCOL_ERROR reply. *)
Theorem C2_decode_success_calls_close_once (mem : Memory) (ev : Event)
  (d : Serialization.Decoded) :
  decode_payload decode_int mem ev = Some d ->
  trace (run decode_int mem ev) = BrokerClose (Serialization.value d) :: nil
  /\ close_calls (trace (run decode_int mem ev)) = Serialization.value d :: nil
  /\ error_replies (trace (run decode_int mem ev)) = nil
  /\ forall text,
       ~ In (CbError Error.PROTOCOL_ERROR text) (trace (run decode_int mem ev)).
Proof.
  intros Hdec. rewrite (run_close_path mem ev d Hdec). cbn.
  repeat split.
  intros text [Hin | []]; discriminate Hin.
Qed.

(** C3: every run takes exactly one of the two reply paths, the broker's
    close when the decode succeeds and the PROTOCOL_ERROR reply when it
    fails, and in both cases [run] returns: the decode failure ends in
    the handler. *)
Theorem C3_exactly_one_reply_path (mem : Memory) (ev : Event) :
  fst (run decode_int mem ev) = tt
  /\ ((exists d, decode_payload decode_int mem ev = Some d
         /\ close_calls (trace (run decode_int mem ev))
              = Serialization.value d :: nil
         /\ error_replies (trace (run decode_int mem ev)) = nil)
      \/ (decode_payload decode_int mem ev = None
          /\ close_calls (trace (run decode_int mem ev)) = nil
          /\ error_replies (trace (run decode_int mem ev)) =
               (Error.PROTOCOL_ERROR,
                "Encoding problem with CLOSE message"%string) :: nil))
  /\ (length (close_calls (trace (run decode_int mem ev)))
      + length (error_replies (trace (run decode_int mem ev))) = 1)%nat.
Proof.
  destruct (decode_payload decode_int mem ev) as [d |] eqn:Hdec.
  - rewrite (run_close_path mem ev d Hdec). cbn.
    split; [reflexivity | split; [left; exists d; auto | reflexivity]].
  - rewrite (run_abort_path mem ev Hdec). cbn.
    split; [reflexivity | split; [right; auto | reflexivity]].
Qed.

End CloseHandler.

Section CloseHandlerArithmetic.
Import Machine DfsBroker.
Local Open Scope Z_scope.

Lemma SIZE_MODULUS_value : SIZE_MODULUS = 18446744073709551616.
Proof. reflexivity. Qed.

Lemma remaining_of_long (ev : Event) :
  is_size_t (messageLen ev) -> 2 <= messageLen ev ->
  remaining_of ev = messageLen ev - 2.
Proof.
  unfold is_size_t, remaining_of, size_sub, wrap_size_t, sizeof_int16.
  rewrite SIZE_MODULUS_value. intros Hrange Hlen.
  apply Z.mod_small. lia.
Qed.

Lemma remaining_of_short (ev : Event) :
  is_size_t (messageLen ev) -> messageLen ev < 2 ->
  remaining_of ev = SIZE_MODULUS - 2 + messageLen ev.
Proof.
  unfold is_size_t, remaining_of, size_sub, wrap_size_t, sizeof_int16.
  rewrite SIZE_MODULUS_value. intros Hrange Hlen.
  symmetry. apply Z.mod_unique with (q := -1); lia.
Qed.

Lemma load8_range (mem : Memory) (a : Z) : 0 <= load8 mem a < 256.
Proof. unfold load8. apply Z.mod_pos_bound. lia. Qed.

Lemma lor_below_pow2 (a b n : Z) :
  0 < n -> 0 <= a < 2 ^ n -> 0 <= b < 2 ^ n -> 0 <= Z.lor a b < 2 ^ n.
Proof.
  intros Hn Ha Hb.
  assert (Hnonneg : 0 <= Z.lor a b) by (apply Z.lor_nonneg; lia).
  split; [exact Hnonneg |].
  destruct (Z.eq_dec (Z.lor a b) 0) as [-> | Hne].
  { apply Z.pow_pos_nonneg; lia. }
  apply Z.log2_lt_pow2; [lia |].
  rewrite Z.log2_lor by lia.
  apply Z.max_lub_lt.
  - destruct (Z.eq_dec a 0) as [-> | Hane]; [cbn; lia |].
    apply Z.log2_lt_pow2; lia.
  - destruct (Z.eq_dec b 0) as [-> | Hbne]; [cbn; lia |].
    apply Z.log2_lt_pow2; lia.
Qed.

(** Four bytes make a [uint32_t]. *)
Lemma load32_range (mem : Memory) (a : Z) : is_uint32 (load32 mem a).
Proof.
  unfold is_uint32, load32.
  pose proof (load8_range mem a) as H0.
  pose proof (load8_range mem (a + 1)) as H1.
  pose proof (load8_range mem (a + 2)) as H2.
  pose proof (load8_range mem (a + 3)) as H3.
  rewrite !Z.shiftl_mul_pow2 by lia.
  change (2 ^ 8) with 256. change (2 ^ 16) with 65536.
  change (2 ^ 24) with 16777216.
  assert (Hpow : 2 ^ 32 = 4294967296) by reflexivity.
  repeat apply lor_below_pow2; rewrite ?Hpow; lia.
Qed.

Lemma decode_int_value_range (mem : Memory) (buf remaining : Z)
  (d : Serialization.Decoded) :
  Serialization.decode_int mem buf remaining = Some d ->
  is_uint32 (Serialization.value d).
Proof.
  unfold Serialization.decode_int.
  destruct (remaining <? 4); [discriminate |].
  intros [= <-]. cbn. apply load32_range.
Qed.

(** [load8] depends on the one byte it reads, [load32] on four. *)
Lemma load32_ext (mem1 mem2 : Memory) (p1 p2 : Z) :
  (forall i, 0 <= i < 4 -> mem1 (p1 + i) = mem2 (p2 + i)) ->
  load32 mem1 p1 = load32 mem2 p2.
Proof.
  intros Hsame. unfold load32, load8.
  rewrite <- (Z.add_0_r p1) at 1. rewrite <- (Z.add_0_r p2) at 1.
  rewrite (Hsame 0), (Hsame 1), (Hsame 2), (Hsame 3) by lia.
  reflexivity.
Qed.

(** The modelled decoder reads only the bytes it is told remain. *)
Lemma decode_int_bounded : Serialization.bounded Serialization.decode_int.
Proof.
  intros mem1 mem2 p1 p2 remaining Hsame.
  unfold Serialization.decode_int.
  destruct (remaining <? 4) eqn:Hlt; [reflexivity |].
  apply Z.ltb_ge in Hlt. cbn.
  f_equal. apply load32_ext. intros i Hi. apply Hsame. lia.
Qed.

(** C9: [remaining] is [messageLen - sizeof(int16_t)] in [size_t]
    arithmetic.  From two bytes on it is the payload length; below two bytes
    the subtraction wraps modulo [2 ^ 64] and leaves a count of at least
    [2 ^ 64 - 2].  Nothing in [run] rejects such a message first: the
    decoder is called with the wrapped count and its verdict alone picks
    the path, so the bounds check of [decode_int] passes and the broker's
    close is called on four bytes that lie past the message. *)
Theorem C9_remaining_wraps_below_opcode_size
  (dec : Serialization.Decoder) (mem : Memory) (ev : Event) :
  is_size_t (messageLen ev) ->
  (2 <= messageLen ev -> remaining_of ev = messageLen ev - 2)
  /\ (messageLen ev < 2 ->
      remaining_of ev = messageLen ev - 2 + 2 ^ 64
      /\ 2 ^ 64 - 2 <= remaining_of ev
      /\ (forall d,
            dec mem (message ev + 2) (messageLen ev - 2 + 2 ^ 64) = Some d ->
            trace (run dec mem ev) = BrokerClose (Serialization.value d) :: nil)
      /\ trace (run Serialization.decode_int mem ev)
           = BrokerClose (load32 mem (message ev + 2)) :: nil).
Proof.
  intros Hrange. split.
  - intros Hlen. apply remaining_of_long; assumption.
  - intros Hlen.
    pose proof (remaining_of_short ev Hrange Hlen) as Hrem.
    rewrite SIZE_MODULUS_value in Hrem.
    change (2 ^ 64) with 18446744073709551616.
    unfold is_size_t in Hrange.
    assert (Hrem' : remaining_of ev = messageLen ev - 2 + 18446744073709551616)
      by lia.
    split; [exact Hrem' |]. split; [lia |]. split.
    + intros d Hd.
      assert (Hpay : decode_payload dec mem ev = Some d).
      { unfold decode_payload, msgPtr_of, sizeof_int16. rewrite Hrem'. exact Hd. }
      rewrite (run_close_path dec mem ev d Hpay). reflexivity.
    + assert (Hpay : decode_payload Serialization.decode_int mem ev
                     = Some {| Serialization.next_ptr := message ev + 2 + 4;
                               Serialization.next_remaining := remaining_of ev - 4;
                               Serialization.value := load32 mem (message ev + 2) |}).
      { unfold decode_payload, Serialization.decode_int, msgPtr_of, sizeof_int16.
        destruct (remaining_of ev <? 4) eqn:Hlt; [| reflexivity].
        apply Z.ltb_lt in Hlt. lia. }
      rewrite (run_close_path _ mem ev _ Hpay). reflexivity.
Qed.

(** Two runs over messages of the same length, at least the two bytes of
    the opcode, holding the same bytes, take the same path with the same
    outcome, whatever else the two memories hold, as long as the decoder
    reads no further than the count it is given. *)
Lemma run_deterministic_from_two_bytes
  (dec : Serialization.Decoder) (mem1 mem2 : Memory) (ev1 ev2 : Event) :
  Serialization.bounded dec ->
  is_size_t (messageLen ev1) ->
  2 <= messageLen ev1 ->
  same_message mem1 mem2 ev1 ev2 ->
  run dec mem1 ev1 = run dec mem2 ev2.
Proof.
  intros Hdec Hrange Hlen [Hsame_len Hsame_bytes].
  assert (Hout : Serialization.outcome (decode_payload dec mem1 ev1)
                 = Serialization.outcome (decode_payload dec mem2 ev2)).
  { unfold decode_payload.
    rewrite (remaining_of_long ev1 Hrange Hlen).
    rewrite (remaining_of_long ev2) by (rewrite <- Hsame_len; assumption).
    rewrite <- Hsame_len.
    apply Hdec. intros i Hi. unfold msgPtr_of, sizeof_int16.
    rewrite <- !Z.add_assoc. apply Hsame_bytes. lia. }
  destruct (decode_payload dec mem1 ev1) as [d1 |] eqn:H1;
    destruct (decode_payload dec mem2 ev2) as [d2 |] eqn:H2;
    cbn in Hout; try discriminate Hout.
  - rewrite (run_close_path dec mem1 ev1 d1 H1), (run_close_path dec mem2 ev2 d2 H2).
    congruence.
  - rewrite (run_abort_path dec mem1 ev1 H1), (run_abort_path dec mem2 ev2 H2).
    reflexivity.
Qed.

End CloseHandlerArithmetic.


Section CloseHandlerInstances.
Import Machine DfsBroker CloseExamples.
Local Open Scope Z_scope.

Lemma truncated_request_fails :
  decode_payload Serialization.decode_int zeros truncated_request = None.
Proof. reflexivity. Qed.

Lemma full_request_decodes :
  decode_payload Serialization.decode_int close7 full_request
  = Some {| Serialization.next_ptr := 4102;
            Serialization.next_remaining := 0;
            Serialization.value := 7 |}.
Proof. reflexivity. Qed.

Lemma C1_witness :
  decode_payload Serialization.decode_int zeros truncated_request = None
  /\ error_replies (trace (run Serialization.decode_int zeros truncated_request)) =
       (Error.PROTOCOL_ERROR, "Encoding problem with CLOSE message"%string) :: nil
  /\ close_calls (trace (run Serialization.decode_int zeros truncated_request)) = nil
  /\ forall fd,
       ~ In (BrokerClose fd)
            (trace (run Serialization.decode_int zeros truncated_request)).
Proof.
  exact (conj truncated_request_fails
           (C1_decode_failure_replies_protocol_error
              Serialization.decode_int zeros truncated_request
              truncated_request_fails)).
Defined.

Lemma C2_witness :
  decode_payload Serialization.decode_int close7 full_request
  = Some {| Serialization.next_ptr := 4102;
            Serialization.next_remaining := 0;
            Serialization.value := 7 |}
  /\ close_calls (trace (run Serialization.decode_int close7 full_request))
     = 7 :: nil.
Proof.
  exact (conj full_request_decodes
           (proj1 (proj2 (C2_decode_success_calls_close_once
                            Serialization.decode_int close7 full_request _
                            full_request_decodes)))).
Defined.

Lemma empty_request_is_size_t : is_size_t (messageLen empty_request).
Proof. unfold is_size_t. rewrite SIZE_MODULUS_value. cbn. lia. Qed.

Lemma empty_request_lacks_opcode : messageLen empty_request < 2.
Proof. reflexivity. Qed.

Lemma C9_witness :
  is_size_t (messageLen empty_request)
  /\ messageLen empty_request < 2
  /\ remaining_of empty_request = 18446744073709551614
  /\ trace (run Serialization.decode_int ones empty_request)
     = BrokerClose 16843009 :: nil.
Proof.
  refine (conj empty_request_is_size_t (conj empty_request_lacks_opcode _)).
  refine (match proj2 (C9_remaining_wraps_below_opcode_size
                         Serialization.decode_int ones empty_request
                         empty_request_is_size_t)
                      empty_request_lacks_opcode
          with
          | conj Hrem (conj _ (conj _ Hrun)) => conj Hrem Hrun
          end).
Defined.


Lemma full_request_same_message :
  same_message close7 close7_elsewhere full_request full_request_elsewhere.
Proof.
  split; [reflexivity |]. cbn. intros i Hi.
  assert (Hcases : i = 0 \/ i = 1 \/ i = 2 \/ i = 3 \/ i = 4 \/ i = 5) by lia.
  destruct Hcases as [-> | [-> | [-> | [-> | [-> | ->]]]]]; reflexivity.
Qed.

Lemma full_request_is_size_t : is_size_t (messageLen full_request).
Proof. unfold is_size_t. rewrite SIZE_MODULUS_value. cbn. lia. Qed.

Lemma full_request_has_opcode : 2 <= messageLen full_request.
Proof. cbn. lia. Qed.

(** The same request at another address, among other bytes, is treated
    alike. *)
Example relocated_request_same_outcome :
  run Serialization.decode_int close7 full_request
  = run Serialization.decode_int close7_elsewhere full_request_elsewhere.
Proof.
  apply run_deterministic_from_two_bytes.
  - exact decode_int_bounded.
  - exact full_request_is_size_t.
  - exact full_request_has_opcode.
  - exact full_request_same_message.
Qed.

End CloseHandlerInstances.

(** ** The lock state machine *)

Section LockInvariant.
Import LockManager.

Implicit Types (hs : gmap nat Mode) (l : Lock) (q : list (nat * Mode)).

Lemma exclusive_alone_empty : exclusive_alone ∅.
Proof. intros h Hh. rewrite lookup_empty in Hh. discriminate. Qed.

Lemma exclusive_alone_singleton (h : nat) (mode : Mode) :
  exclusive_alone {[h := mode]}.
Proof.
  intros h1 Hh1 h2 m2 Hh2.
  apply lookup_singleton_Some in Hh1 as [<- _].
  apply lookup_singleton_Some in Hh2 as [<- _].
  reflexivity.
Qed.

(** A holder-set without EXCLUSIVE holders satisfies the rule at once. *)
Lemma exclusive_alone_all_shared hs : all_shared hs → exclusive_alone hs.
Proof.
  intros Hall h Hh. apply Hall in Hh. discriminate.
Qed.

Lemma exclusive_alone_delete hs (h : nat) :
  exclusive_alone hs → exclusive_alone (delete h hs).
Proof.
  intros Hinv h1 Hh1 h2 m2 Hh2.
  apply lookup_delete_Some in Hh1 as [_ Hh1].
  apply lookup_delete_Some in Hh2 as [_ Hh2].
  exact (Hinv h1 Hh1 h2 m2 Hh2).
Qed.

Lemma all_shared_insert hs (h : nat) :
  all_shared hs → all_shared (<[h := SHARED]> hs).
Proof. intros Hall. apply map_Forall_insert_2; [reflexivity | exact Hall]. Qed.

Lemma shared_prefix_all_shared q :
  Forall (λ p, p.2 = SHARED) (shared_prefix q).1.
Proof.
  induction q as [| [h [|]] q IH]; cbn; try constructor.
  destruct (shared_prefix q) as [g r]. cbn in *.
  constructor; [reflexivity | exact IH].
Qed.

(** What the split takes off the head and what it leaves make up the
    queue. *)
Lemma shared_prefix_app q :
  (shared_prefix q).1 ++ (shared_prefix q).2 = q.
Proof.
  induction q as [| [h [|]] q IH]; cbn; try reflexivity.
  destruct (shared_prefix q) as [g r]. cbn in *. by rewrite IH.
Qed.

Lemma list_to_map_all_shared (g : list (nat * Mode)) :
  Forall (λ p, p.2 = SHARED) g →
  all_shared (list_to_map g : gmap nat Mode).
Proof.
  intros Hall h m Hh.
  apply elem_of_list_to_map_2 in Hh.
  rewrite Forall_forall in Hall. exact (Hall (h, m) Hh).
Qed.

Lemma grant_waiters_exclusive_alone q :
  exclusive_alone (grant_waiters q).1.
Proof.
  destruct q as [| [h [|]] q']; cbn.
  - apply exclusive_alone_empty.
  - apply exclusive_alone_singleton.
  - pose proof (shared_prefix_all_shared q') as Hall.
    destruct (shared_prefix q') as [g r]. cbn in *.
    apply exclusive_alone_all_shared.
    apply (list_to_map_all_shared ((h, SHARED) :: g)).
    constructor; [reflexivity | exact Hall].
Qed.

Lemma try_lock_exclusive_alone (h : nat) (mode : Mode) l :
  exclusive_alone (holders l) →
  exclusive_alone (holders (try_lock h mode l).2).
Proof.
  intros Hinv. unfold try_lock.
  case_bool_decide as Hheld; [exact Hinv |].
  destruct (grantable mode (holders l)) eqn:Hgrant; cbn; [| exact Hinv].
  unfold grantable in Hgrant.
  apply orb_true_iff in Hgrant as [Hempty | Hshared].
  - apply bool_decide_eq_true in Hempty. rewrite Hempty.
    rewrite insert_empty. apply exclusive_alone_singleton.
  - apply andb_true_iff in Hshared as [Hmode Hall].
    apply bool_decide_eq_true in Hmode. apply bool_decide_eq_true in Hall.
    subst mode. apply exclusive_alone_all_shared.
    apply all_shared_insert. exact Hall.
Qed.

Lemma release_exclusive_alone (h : nat) l :
  exclusive_alone (holders l) →
  exclusive_alone (holders (release h l)).
Proof.
  intros Hinv. unfold release.
  case_bool_decide as Hempty.
  - pose proof (grant_waiters_exclusive_alone (wait_queue l)) as Hgrant.
    destruct (grant_waiters (wait_queue l)) as [g q]. exact Hgrant.
  - cbn. apply exclusive_alone_delete. exact Hinv.
Qed.

Lemma cancel_exclusive_alone (h : nat) l :
  exclusive_alone (holders l) →
  exclusive_alone (holders (cancel h l)).
Proof. intros Hinv. exact Hinv. Qed.

Lemma apply_exclusive_alone (op : Op) l :
  exclusive_alone (holders l) →
  exclusive_alone (holders (apply l op)).
Proof.
  destruct op as [h mode | h]; cbn.
  - apply try_lock_exclusive_alone.
  - apply release_exclusive_alone.
Qed.

(** The rule is an invariant of every run. *)
Lemma run_exclusive_alone (ops : list Op) l :
  exclusive_alone (holders l) →
  exclusive_alone (holders (run ops l)).
Proof.
  revert l. induction ops as [| op ops IH]; intros l Hinv; cbn.
  - exact Hinv.
  - apply IH. apply apply_exclusive_alone. exact Hinv.
Qed.

(** The two readings of the rule in the data model follow from it. *)
Lemma exclusive_alone_single_mode hs : exclusive_alone hs → single_mode hs.
Proof.
  intros Hinv h1 h2 m1 m2 H1 H2.
  destruct m1, m2; try reflexivity.
  - pose proof (Hinv h1 H1 h2 SHARED H2) as ->. congruence.
  - pose proof (Hinv h2 H2 h1 SHARED H1) as ->. congruence.
Qed.

Lemma exclusive_alone_at_most_one hs :
  exclusive_alone hs → exclusive_at_most_one hs.
Proof.
  intros Hinv h Hh.
  assert (Heq : hs = {[h := EXCLUSIVE]}).
  { apply map_eq. intros k.
    destruct (decide (k = h)) as [-> | Hne].
    - rewrite lookup_singleton_eq. exact Hh.
    - rewrite lookup_singleton_ne by congruence.
      destruct (hs !! k) as [m |] eqn:Hk; [| reflexivity].
      exfalso. apply Hne. exact (Hinv h Hh k m Hk). }
  rewrite Heq, map_size_singleton. lia.
Qed.

(** C5: after every sequence of TryLock and Release operations on a node's
    lock, started UNLOCKED, an EXCLUSIVE holder is the only holder: the
    holder-set is never mixed-mode, and an EXCLUSIVE holder-set has at most
    one member. *)
Theorem C5_holder_set_mode_exclusive (ops : list Op) :
  exclusive_alone (holders (run ops unlocked))
  ∧ single_mode (holders (run ops unlocked))
  ∧ exclusive_at_most_one (holders (run ops unlocked)).
Proof.
  assert (Hinv : exclusive_alone (holders (run ops unlocked))).
  { apply run_exclusive_alone. apply exclusive_alone_empty. }
  split; [exact Hinv |].
  split; [apply exclusive_alone_single_mode | apply exclusive_alone_at_most_one];
    exact Hinv.
Qed.

(** *** Waiters *)

Lemma no_idle_waiters_unlocked : no_idle_waiters unlocked.
Proof. intros _. reflexivity. Qed.

Lemma try_lock_no_idle_waiters (h : nat) (mode : Mode) l :
  no_idle_waiters l → no_idle_waiters (try_lock h mode l).2.
Proof.
  intros Hinv. unfold try_lock.
  case_bool_decide as Hheld; [exact Hinv |].
  destruct (grantable mode (holders l)) eqn:Hgrant; cbn.
  - intros Hempty. cbn in Hempty. by apply insert_non_empty in Hempty.
  - intros Hempty. cbn in Hempty. unfold grantable in Hgrant.
    rewrite (bool_decide_eq_true_2 _ Hempty) in Hgrant. discriminate.
Qed.

Lemma grant_waiters_no_idle_waiters q :
  (grant_waiters q).1 = ∅ → (grant_waiters q).2 = [].
Proof.
  destruct q as [| [h [|]] q']; cbn.
  - reflexivity.
  - intros Hempty. by apply (map_non_empty_singleton h EXCLUSIVE) in Hempty.
  - destruct (shared_prefix q') as [g r]. cbn.
    intros Hempty. by apply insert_non_empty in Hempty.
Qed.

Lemma release_no_idle_waiters (h : nat) l :
  no_idle_waiters (release h l).
Proof.
  unfold release. case_bool_decide as Hempty.
  - pose proof (grant_waiters_no_idle_waiters (wait_queue l)) as Hgrant.
    destruct (grant_waiters (wait_queue l)) as [g q]. exact Hgrant.
  - intros Hnow. cbn in Hnow. contradiction.
Qed.

Lemma cancel_no_idle_waiters (h : nat) l :
  no_idle_waiters l → no_idle_waiters (cancel h l).
Proof.
  intros Hinv Hempty. cbn in *. rewrite (Hinv Hempty). reflexivity.
Qed.

Lemma run_no_idle_waiters (ops : list Op) l :
  no_idle_waiters l → no_idle_waiters (run ops l).
Proof.
  revert l. induction ops as [| [h mode | h] ops IH]; intros l Hinv; cbn.
  - exact Hinv.
  - apply IH. apply try_lock_no_idle_waiters. exact Hinv.
  - apply IH. apply release_no_idle_waiters.
Qed.

(** Releasing a lock one does not hold changes nothing: a repeated
    [Release] wakes nobody a second time. *)
Lemma release_non_holder (h : nat) l :
  no_idle_waiters l → holders l !! h = None → release h l = l.
Proof.
  intros Hinv Hnone. unfold release.
  rewrite (delete_id _ _ Hnone).
  destruct l as [hs q]. unfold no_idle_waiters in Hinv. cbn in *.
  case_bool_decide as Hempty; [| reflexivity].
  rewrite (Hinv Hempty). cbn. by rewrite Hempty.
Qed.

Lemma release_twice (h : nat) l :
  no_idle_waiters l → holders (release h l) !! h = None →
  release h (release h l) = release h l.
Proof.
  intros Hinv Hnone. apply release_non_holder; [| exact Hnone].
  apply release_no_idle_waiters.
Qed.

End LockInvariant.

(** ** Session expiry *)

Section SessionExpiry.
Import LockManager Master.

Variable lease_timeout : Z.

Implicit Types (s : State) (sid hid : nat) (D : gset nat).

Lemma connected_true s sid :
  connected s sid = true ↔
  ∃ ses, sessions s !! sid = Some ses ∧ liveness ses = CONNECTED.
Proof.
  unfold connected. destruct (sessions s !! sid) as [ses |]; split.
  - intros H. apply bool_decide_eq_true in H. eauto.
  - intros (ses' & [= <-] & H). by apply bool_decide_eq_true.
  - discriminate.
  - intros (ses' & [=] & _).
Qed.

Lemma dead_not_connected s sid : dead s sid → connected s sid = false.
Proof.
  intros (ses & Hses & Hlive). unfold connected. rewrite Hses.
  by apply bool_decide_eq_false.
Qed.

Lemma retire_sessions_lookup D (to : Liveness) s sid :
  sessions (retire D to s) !! sid
  = (λ ses, if bool_decide (sid ∈ D) then mark to ses else ses)
      <$> sessions s !! sid.
Proof.
  unfold retire. cbn. rewrite map_lookup_imap.
  destruct (sessions s !! sid); reflexivity.
Qed.

Lemma retire_handles_lookup D (to : Liveness) s hid (h : Handle) :
  handles (retire D to s) !! hid = Some h ↔
  handles s !! hid = Some h ∧ h_session h ∉ D.
Proof. unfold retire. cbn. apply map_lookup_filter_Some. Qed.

Lemma retire_next_handle_id D (to : Liveness) s :
  next_handle_id (retire D to s) = next_handle_id s.
Proof. reflexivity. Qed.

Lemma retire_next_session_id D (to : Liveness) s :
  next_session_id (retire D to s) = next_session_id s.
Proof. reflexivity. Qed.

(** A session outside [D] keeps its standing through the cascade. *)
Lemma retire_connected_other D (to : Liveness) s sid :
  sid ∉ D → connected (retire D to s) sid = connected s sid.
Proof.
  intros Hout. unfold connected. rewrite retire_sessions_lookup.
  destruct (sessions s !! sid) as [ses |]; cbn; [| reflexivity].
  by rewrite (bool_decide_eq_false_2 _ Hout).
Qed.

Lemma dead_retire D (to : Liveness) s sid :
  to ≠ CONNECTED → dead s sid → dead (retire D to s) sid.
Proof.
  intros Hto (ses & Hses & Hlive). unfold dead.
  rewrite retire_sessions_lookup, Hses. cbn.
  eexists. split; [reflexivity |].
  case_bool_decide; [exact Hto | exact Hlive].
Qed.

(** A session that is not CONNECTED stays so under every request:
    no request revives it, and a new session never takes its id. *)
Lemma dead_step (now : Z) (req : Request) s sid :
  well_formed s → dead s sid → dead (step lease_timeout now req s).2 sid.
Proof.
  intros (Hsid & _ & _) Hdead.
  pose proof Hdead as (ses & Hses & Hlive).
  destruct req as [| sid' | sid' path mode | hid | hid mode | hid | sid' |];
    cbn.
  - (* CreateSession *)
    exists ses. split; [| exact Hlive].
    unfold create_session. cbn.
    rewrite lookup_insert_ne; [exact Hses |].
    assert (sid < next_session_id s) by (apply Hsid; eauto). lia.
  - (* Keepalive *)
    unfold keepalive.
    destruct (connected s sid') eqn:Hconn; cbn; [| exact Hdead].
    exists ses. split; [| exact Hlive].
    cbn. rewrite lookup_insert_ne; [exact Hses |].
    intros ->. rewrite (dead_not_connected _ _ Hdead) in Hconn. discriminate.
  - (* Open *)
    unfold open.
    destruct (negb (connected s sid')); [exact Hdead |].
    destruct (negb _); exact Hdead.
  - (* Close *)
    unfold close. destruct (handles s !! hid); exact Hdead.
  - (* Lock *)
    unfold lock. destruct (handles s !! hid) as [h |]; [| exact Hdead].
    destruct (negb (connected s (h_session h))); [exact Hdead |].
    destruct (negb _); [exact Hdead |].
    destruct (try_lock hid mode (lock_of s (h_path h))). exact Hdead.
  - (* Release *)
    unfold release_handle. destruct (handles s !! hid); exact Hdead.
  - (* DestroySession *)
    unfold destroy_session. destruct (sessions s !! sid'); [| exact Hdead].
    cbn. apply dead_retire; [discriminate | exact Hdead].
  - (* ExpireCheck *)
    apply dead_retire; [discriminate | exact Hdead].
Qed.

Lemma well_formed_initial : well_formed initial.
Proof.
  unfold well_formed, initial. cbn. repeat split.
  - intros sid [x Hx]. rewrite lookup_empty in Hx. discriminate.
  - intros hid [x Hx]. rewrite lookup_empty in Hx. discriminate.
  - intros hid h Hh. rewrite lookup_empty in Hh. discriminate.
Qed.

Lemma well_formed_retire D (to : Liveness) s :
  well_formed s → well_formed (retire D to s).
Proof.
  intros (Hsid & Hhid & Hown). repeat split.
  - intros sid [x Hx]. rewrite retire_next_session_id. apply Hsid.
    rewrite retire_sessions_lookup in Hx.
    destruct (sessions s !! sid); [eauto | discriminate].
  - intros hid [h Hh]. rewrite retire_next_handle_id. apply Hhid.
    apply retire_handles_lookup in Hh as [Hh _]. eauto.
  - intros hid h Hh. apply retire_handles_lookup in Hh as [Hh Hout].
    rewrite retire_connected_other by exact Hout. exact (Hown hid h Hh).
Qed.

(** Every request keeps the state well formed. *)
Lemma well_formed_step (now : Z) (req : Request) s :
  well_formed s → well_formed (step lease_timeout now req s).2.
Proof.
  intros Hwf. pose proof Hwf as (Hsid & Hhid & Hown).
  destruct req as [| sid' | sid' path mode | hid | hid mode | hid | sid' |];
    cbn.
  - (* CreateSession *)
    repeat split; cbn.
    + intros sid Hsome. apply lookup_insert_is_Some in Hsome as [<- | [_ Hsome]].
      * lia.
      * apply Hsid in Hsome. lia.
    + exact Hhid.
    + intros hid h Hh. pose proof (Hown hid h Hh) as Hconn.
      apply connected_true in Hconn as (ses & Hses & Hlive).
      apply connected_true. cbn.
      destruct (decide (next_session_id s = h_session h)) as [Heq | Hne].
      * rewrite Heq, lookup_insert_eq. eauto.
      * rewrite lookup_insert_ne by exact Hne. eauto.
  - (* Keepalive *)
    unfold keepalive.
    destruct (connected s sid') eqn:Hconn'; cbn; [| exact Hwf].
    apply connected_true in Hconn' as (ses' & Hses' & _).
    repeat split; cbn.
    + intros sid Hsome. apply lookup_insert_is_Some in Hsome as [<- | [_ Hsome]].
      * apply Hsid. eauto.
      * by apply Hsid.
    + exact Hhid.
    + intros hid h Hh. pose proof (Hown hid h Hh) as Hconn.
      apply connected_true in Hconn as (ses & Hses & Hlive).
      apply connected_true. cbn.
      destruct (decide (sid' = h_session h)) as [Heq | Hne].
      * rewrite Heq, lookup_insert_eq. eauto.
      * rewrite lookup_insert_ne by exact Hne. eauto.
  - (* Open *)
    unfold open.
    destruct (connected s sid') eqn:Hconn'; cbn; [| exact Hwf].
    destruct (negb _); cbn; [exact Hwf |].
    repeat split; cbn.
    + exact Hsid.
    + intros hid Hsome. apply lookup_insert_is_Some in Hsome as [<- | [_ Hsome]].
      * lia.
      * apply Hhid in Hsome. lia.
    + intros hid h Hh. apply lookup_insert_Some in Hh as [[_ <-] | [_ Hh]].
      * exact Hconn'.
      * exact (Hown hid h Hh).
  - (* Close *)
    unfold close. destruct (handles s !! hid) as [h0 |] eqn:Hh0; [| exact Hwf].
    repeat split; cbn.
    + exact Hsid.
    + intros hid' [h Hh]. apply lookup_delete_Some in Hh as [_ Hh].
      apply Hhid. eauto.
    + intros hid' h Hh. apply lookup_delete_Some in Hh as [_ Hh].
      exact (Hown hid' h Hh).
  - (* Lock *)
    unfold lock. destruct (handles s !! hid) as [h |]; [| exact Hwf].
    destruct (negb (connected s (h_session h))); [exact Hwf |].
    destruct (negb _); [exact Hwf |].
    destruct (try_lock hid mode (lock_of s (h_path h))). exact Hwf.
  - (* Release *)
    unfold release_handle. destruct (handles s !! hid); exact Hwf.
  - (* DestroySession *)
    unfold destroy_session. destruct (sessions s !! sid'); [| exact Hwf].
    cbn. apply well_formed_retire. exact Hwf.
  - (* ExpireCheck *)
    apply well_formed_retire. exact Hwf.
Qed.

Lemma gone_retire D (to : Liveness) s hid :
  gone s hid → gone (retire D to s) hid.
Proof.
  intros [Hnone Hlt]. split; [| exact Hlt].
  apply eq_None_not_Some. intros [h Hh].
  apply retire_handles_lookup in Hh as [Hh _]. congruence.
Qed.

(** A handle that left the table never comes back: fresh handles take
    larger ids. *)
Lemma gone_step (now : Z) (req : Request) s hid :
  gone s hid → gone (step lease_timeout now req s).2 hid.
Proof.
  intros Hgone. pose proof Hgone as [Hnone Hlt].
  destruct req as [| sid' | sid' path mode | hid' | hid' mode | hid' | sid' |];
    cbn.
  - exact Hgone.
  - unfold keepalive. destruct (connected s sid'); exact Hgone.
  - unfold open.
    destruct (negb (connected s sid')); [exact Hgone |].
    destruct (negb _); [exact Hgone |].
    split; cbn; [| lia].
    rewrite lookup_insert_ne by lia. exact Hnone.
  - unfold close. destruct (handles s !! hid'); [| exact Hgone].
    split; cbn; [| exact Hlt].
    apply lookup_delete_None. by right.
  - unfold lock. destruct (handles s !! hid') as [h |]; [| exact Hgone].
    destruct (negb (connected s (h_session h))); [exact Hgone |].
    destruct (negb _); [exact Hgone |].
    destruct (try_lock hid' mode (lock_of s (h_path h))). exact Hgone.
  - unfold release_handle. destruct (handles s !! hid'); exact Hgone.
  - unfold destroy_session. destruct (sessions s !! sid'); [| exact Hgone].
    cbn. apply gone_retire. exact Hgone.
  - apply gone_retire. exact Hgone.
Qed.

(** The cascade takes the handles of the retired sessions off the table. *)
Lemma retire_owned_gone D (to : Liveness) s sid hid :
  well_formed s → sid ∈ D → owner s hid = Some sid →
  gone (retire D to s) hid.
Proof.
  intros (_ & Hhid & _) Hin Hown. unfold owner in Hown.
  destruct (handles s !! hid) as [h |] eqn:Hh; [| discriminate].
  cbn in Hown. injection Hown as Hown. split.
  - apply eq_None_not_Some. intros [h' Hh'].
    apply retire_handles_lookup in Hh' as [Hh' Hout].
    rewrite Hh in Hh'. injection Hh' as <-. apply Hout. by rewrite Hown.
  - rewrite retire_next_handle_id. apply Hhid. eauto.
Qed.

(** The session [ExpireCheck] marks EXPIRED is one whose lease had lapsed. *)
Lemma expired_was_lapsed (now : Z) s sid :
  connected s sid = true →
  liveness <$> sessions (expire_check now s).2 !! sid = Some EXPIRED →
  sid ∈ lapsed now s.
Proof.
  intros Hconn Hexp. apply connected_true in Hconn as (ses & Hses & Hlive).
  change (expire_check now s).2 with (retire (lapsed now s) EXPIRED s) in Hexp.
  rewrite retire_sessions_lookup, Hses in Hexp. cbn in Hexp.
  case_bool_decide as Hin; [exact Hin |].
  injection Hexp as Hexp. congruence.
Qed.

(** And a CONNECTED session whose deadline has passed is marked EXPIRED. *)
Lemma lapsed_is_expired (now : Z) s sid (ses : Session) :
  sessions s !! sid = Some ses → liveness ses = CONNECTED →
  (lease_deadline ses < now)%Z →
  liveness <$> sessions (expire_check now s).2 !! sid = Some EXPIRED.
Proof.
  intros Hses Hlive Hlate.
  change (expire_check now s).2 with (retire (lapsed now s) EXPIRED s).
  rewrite retire_sessions_lookup, Hses. cbn.
  rewrite bool_decide_eq_true_2; [reflexivity |].
  unfold lapsed. apply elem_of_dom. exists ses.
  apply map_lookup_filter_Some. cbn. auto.
Qed.

(** A request that meets a dead session is not served. *)
Lemma not_served_step (now : Z) (req : Request) s s0 sid :
  dead s sid →
  (∀ hid, owner s0 hid = Some sid → gone s hid) →
  not_served sid s0 (s, req, (step lease_timeout now req s).1).
Proof.
  intros Hdead Hgone.
  pose proof (dead_not_connected s sid Hdead) as Hconn.
  unfold not_served. repeat split.
  - destruct req as [| sid' | sid' path mode | hid | hid mode | hid | sid' |];
      cbn; try tauto.
    + unfold keepalive.
      destruct (connected s sid') eqn:Hconn'; cbn; [| tauto].
      intros ->. congruence.
    + unfold open.
      destruct (connected s sid') eqn:Hconn'; cbn; [| tauto].
      destruct (negb _); cbn; [tauto |].
      intros ->. congruence.
    + unfold lock, owner.
      destruct (handles s !! hid) as [h |] eqn:Hh; cbn; [| tauto].
      destruct (connected s (h_session h)) eqn:Hconn'; cbn; [| tauto].
      destruct (negb _); cbn; [tauto |].
      destruct (try_lock hid mode (lock_of s (h_path h))) as [[| |] l'];
        cbn; try tauto.
      all: intros [= Hsid]; rewrite Hsid in Hconn'; congruence.
  - intros path mode ->. cbn. unfold open. rewrite Hconn. reflexivity.
  - intros ->. cbn. unfold keepalive. rewrite Hconn. reflexivity.
  - intros hid mode -> Hown. cbn. unfold lock.
    destruct (Hgone hid Hown) as [Hnone _]. rewrite Hnone. reflexivity.
Qed.

Lemma exec_not_served (reqs : list (Z * Request)) s s0 sid :
  well_formed s → dead s sid →
  (∀ hid, owner s0 hid = Some sid → gone s hid) →
  Forall (not_served sid s0) (exec lease_timeout reqs s).1.
Proof.
  revert s. induction reqs as [| [now req] reqs IH]; intros s Hwf Hdead Hgone.
  - constructor.
  - cbn.
    pose proof (not_served_step now req s s0 sid Hdead Hgone) as Hhere.
    pose proof (well_formed_step now req s Hwf) as Hwf'.
    pose proof (dead_step now req s sid Hwf Hdead) as Hdead'.
    assert (Hgone' : ∀ hid, owner s0 hid = Some sid →
                            gone (step lease_timeout now req s).2 hid).
    { intros hid Hown. apply gone_step. exact (Hgone hid Hown). }
    destruct (step lease_timeout now req s) as [resp s'] eqn:Hstep.
    cbn in *.
    specialize (IH s' Hwf' Hdead' Hgone').
    destruct (exec lease_timeout reqs s') as [log s'']. cbn in *.
    constructor; [exact Hhere | exact IH].
Qed.

(** C6: once [ExpireCheck] has taken a session from CONNECTED to EXPIRED,
    no later request against that session id succeeds, whatever requests
    follow and whenever: [Open] fails with SessionInvalid, [Keepalive]
    returns EXPIRED, and [Lock] through a handle of the session is
    DENIED. *)
Theorem C6_expired_session_is_never_served
  (s : State) (now : Z) (sid : nat) (reqs : list (Z * Request)) :
  well_formed s →
  connected s sid = true →
  liveness <$> sessions (expire_check now s).2 !! sid = Some EXPIRED →
  Forall (not_served sid s)
         (exec lease_timeout reqs (expire_check now s).2).1.
Proof.
  intros Hwf Hconn Hexp.
  pose proof (expired_was_lapsed now s sid Hconn Hexp) as Hin.
  apply exec_not_served.
  - apply well_formed_retire. exact Hwf.
  - destruct (sessions (expire_check now s).2 !! sid) as [ses |] eqn:Hses;
      [| discriminate].
    exists ses. split; [exact Hses |].
    cbn in Hexp. injection Hexp as Hexp. rewrite Hexp. discriminate.
  - intros hid Hown. cbn. exact (retire_owned_gone _ _ s sid hid Hwf Hin Hown).
Qed.

Lemma well_formed_exec (reqs : list (Z * Request)) s :
  well_formed s → well_formed (exec lease_timeout reqs s).2.
Proof.
  revert s. induction reqs as [| [now req] reqs IH]; intros s Hwf; cbn.
  - exact Hwf.
  - pose proof (well_formed_step now req s Hwf) as Hwf'.
    destruct (step lease_timeout now req s) as [resp s']. cbn in Hwf'.
    specialize (IH s' Hwf').
    destruct (exec lease_timeout reqs s') as [log s'']. exact IH.
Qed.

End SessionExpiry.

Section SessionExpiryInstances.
Import LockManager Master MasterExamples.

Lemma before_expiry_well_formed : well_formed before_expiry.
Proof. apply well_formed_exec. apply well_formed_initial. Qed.

Lemma before_expiry_connected : connected before_expiry 0 = true.
Proof. vm_compute. reflexivity. Qed.

Lemma before_expiry_expires :
  liveness <$> sessions (expire_check 12 before_expiry).2 !! 0 = Some EXPIRED.
Proof. vm_compute. reflexivity. Qed.

Lemma C6_witness :
  well_formed before_expiry
  ∧ connected before_expiry 0 = true
  ∧ liveness <$> sessions (expire_check 12 before_expiry).2 !! 0 = Some EXPIRED
  ∧ Forall (not_served 0 before_expiry)
           (exec lease late_requests (expire_check 12 before_expiry).2).1.
Proof.
  exact (conj before_expiry_well_formed
           (conj before_expiry_connected
              (conj before_expiry_expires
                 (C6_expired_session_is_never_served
                    lease before_expiry 12 0 late_requests
                    before_expiry_well_formed before_expiry_connected
                    before_expiry_expires)))).
Defined.

(** The run behind the witness, request by request. *)
Example late_requests_responses :
  map snd (exec lease late_requests (expire_check 12 before_expiry).2).1
  = [KeepaliveReply KEEPALIVE_EXPIRED; Failed SessionInvalid;
     LockReply DENIED; SessionCreated 2;
     KeepaliveReply KEEPALIVE_EXPIRED; LockReply DENIED].
Proof. vm_compute. reflexivity. Qed.

(** Before the expiry session 0 holds the lock on "/a" and the handle of
    session 1 waits; the expiry hands the lock to the waiter. *)
Example expiry_wakes_the_waiter :
  holders (lock_of before_expiry "/a") !! 0 = Some EXCLUSIVE
  ∧ wait_queue (lock_of before_expiry "/a") = [(1, EXCLUSIVE)]
  ∧ map_to_list (holders (lock_of (expire_check 12 before_expiry).2 "/a"))
    = [(1, EXCLUSIVE)]
  ∧ wait_queue (lock_of (expire_check 12 before_expiry).2 "/a") = [].
Proof. vm_compute. repeat split. Qed.

(** Two readers share the lock, a writer queues behind them and a third
    reader joins the holders; when the three readers have released, the
    writer holds the lock alone. *)
Example readers_then_writer :
  map_to_list
    (holders (LockManager.run
                [TryLock 1 SHARED; TryLock 2 SHARED; TryLock 3 EXCLUSIVE;
                 TryLock 4 SHARED; LockManager.Release 1;
                 LockManager.Release 2; LockManager.Release 4]
                unlocked))
  = [(3, EXCLUSIVE)].
Proof. vm_compute. reflexivity. Qed.

End SessionExpiryInstances.

(** ** The locks of every node, under every request *)

Section MasterLocks.
Import LockManager Master.

Variable lease_timeout : Z.

Implicit Types (s : State) (lks : gmap string LockManager.Lock).

Lemma locks_mode_exclusive_iff s :
  locks_mode_exclusive s ↔ all_exclusive_alone (locks s).
Proof.
  unfold locks_mode_exclusive, all_exclusive_alone, lock_of. split.
  - intros Hinv path l Hl. specialize (Hinv path). by rewrite Hl in Hinv.
  - intros Hall path. destruct (locks s !! path) as [l |] eqn:Hl; cbn.
    + exact (Hall path l Hl).
    + apply exclusive_alone_empty.
Qed.

Lemma all_exclusive_alone_alter (f : LockManager.Lock → LockManager.Lock)
  (path : string) lks :
  (∀ l, exclusive_alone (holders l) → exclusive_alone (holders (f l))) →
  all_exclusive_alone lks → all_exclusive_alone (alter f path lks).
Proof.
  intros Hf Hall k l Hl. cbn.
  destruct (decide (path = k)) as [<- | Hne].
  - rewrite lookup_alter_eq in Hl.
    destruct (lks !! path) as [l0 |] eqn:Hl0; [| discriminate].
    cbn in Hl. injection Hl as <-. apply Hf. exact (Hall path l0 Hl0).
  - rewrite lookup_alter_ne in Hl by exact Hne. exact (Hall k l Hl).
Qed.

Lemma all_exclusive_alone_insert (path : string) (l : LockManager.Lock) lks :
  exclusive_alone (holders l) →
  all_exclusive_alone lks → all_exclusive_alone (<[path := l]> lks).
Proof. intros Hl Hall. apply map_Forall_insert_2; assumption. Qed.

Lemma all_exclusive_alone_foldr_alter
  (f : nat → LockManager.Lock → LockManager.Lock)
  (dying : list (nat * Handle)) lks :
  (∀ h l, exclusive_alone (holders l) → exclusive_alone (holders (f h l))) →
  all_exclusive_alone lks →
  all_exclusive_alone
    (foldr (λ kv acc, alter (f kv.1) (h_path kv.2) acc) lks dying).
Proof.
  intros Hf Hall. induction dying as [| kv dying IH]; cbn.
  - exact Hall.
  - apply all_exclusive_alone_alter; [apply Hf | exact IH].
Qed.

Lemma locks_mode_exclusive_retire (D : gset nat) (to : Liveness) s :
  locks_mode_exclusive s → locks_mode_exclusive (retire D to s).
Proof.
  rewrite !locks_mode_exclusive_iff. intros Hall. unfold retire. cbn.
  apply (all_exclusive_alone_foldr_alter release).
  { intros h l. apply release_exclusive_alone. }
  apply (all_exclusive_alone_foldr_alter cancel).
  { intros h l. apply cancel_exclusive_alone. }
  exact Hall.
Qed.

Lemma locks_mode_exclusive_initial : locks_mode_exclusive initial.
Proof. intros path. apply exclusive_alone_empty. Qed.

Lemma locks_mode_exclusive_step (now : Z) (req : Request) s :
  locks_mode_exclusive s →
  locks_mode_exclusive (step lease_timeout now req s).2.
Proof.
  intros Hinv.
  destruct req as [| sid | sid path mode | hid | hid mode | hid | sid |]; cbn.
  - exact Hinv.
  - unfold keepalive. destruct (connected s sid); exact Hinv.
  - unfold open. destruct (negb (connected s sid)); [exact Hinv |].
    destruct (negb _); exact Hinv.
  - unfold close. destruct (handles s !! hid) as [h |]; [| exact Hinv].
    apply locks_mode_exclusive_iff. cbn.
    apply all_exclusive_alone_alter; [| by apply locks_mode_exclusive_iff].
    intros l Hl. apply release_exclusive_alone, cancel_exclusive_alone, Hl.
  - unfold lock. destruct (handles s !! hid) as [h |]; [| exact Hinv].
    destruct (negb (connected s (h_session h))); [exact Hinv |].
    destruct (negb _); [exact Hinv |].
    pose proof (try_lock_exclusive_alone hid mode (lock_of s (h_path h))
                  (Hinv (h_path h))) as Htry.
    destruct (try_lock hid mode (lock_of s (h_path h))) as [st l'].
    apply locks_mode_exclusive_iff. cbn.
    apply all_exclusive_alone_insert; [exact Htry |].
    by apply locks_mode_exclusive_iff.
  - unfold release_handle. destruct (handles s !! hid) as [h |]; [| exact Hinv].
    apply locks_mode_exclusive_iff. cbn.
    apply all_exclusive_alone_alter; [| by apply locks_mode_exclusive_iff].
    intros l. apply release_exclusive_alone.
  - unfold destroy_session. destruct (sessions s !! sid); [| exact Hinv].
    cbn. apply locks_mode_exclusive_retire. exact Hinv.
  - apply locks_mode_exclusive_retire. exact Hinv.
Qed.

(** On every node, after every run of requests against the master (locks
    taken, released, and torn down with their handles and sessions), an
    EXCLUSIVE holder is the only holder. *)
Lemma every_node_lock_mode_exclusive
  (reqs : list (Z * Request)) (path : string) :
  exclusive_alone
    (holders (lock_of (exec lease_timeout reqs initial).2 path)).
Proof.
  assert (Hgen : ∀ s, locks_mode_exclusive s →
                      locks_mode_exclusive (exec lease_timeout reqs s).2).
  { induction reqs as [| [now req] reqs IH]; intros s Hinv; cbn.
    - exact Hinv.
    - pose proof (locks_mode_exclusive_step now req s Hinv) as Hinv'.
      destruct (step lease_timeout now req s) as [resp s']. cbn in Hinv'.
      specialize (IH s' Hinv').
      destruct (exec lease_timeout reqs s') as [log s'']. exact IH. }
  exact (Hgen initial locks_mode_exclusive_initial path).
Qed.

End MasterLocks.

(** ** More on the CLOSE request handler *)

Section CloseHandlerFurther.
Import Machine DfsBroker CloseExamples.
Local Open Scope Z_scope.

(** [run] looks at the verdict of the decoder and at the decoded value;
    the advanced pointer and the lowered count are dropped. *)
Lemma run_outcome (dec1 dec2 : Serialization.Decoder) (mem1 mem2 : Memory)
  (ev1 ev2 : Event) :
  Serialization.outcome (decode_payload dec1 mem1 ev1)
  = Serialization.outcome (decode_payload dec2 mem2 ev2) ->
  run dec1 mem1 ev1 = run dec2 mem2 ev2.
Proof.
  intros Hout.
  destruct (decode_payload dec1 mem1 ev1) as [d1 |] eqn:H1;
    destruct (decode_payload dec2 mem2 ev2) as [d2 |] eqn:H2;
    cbn in Hout; try discriminate Hout.
  - rewrite (run_close_path dec1 mem1 ev1 d1 H1).
    rewrite (run_close_path dec2 mem2 ev2 d2 H2). congruence.
  - rewrite (run_abort_path dec1 mem1 ev1 H1).
    rewrite (run_abort_path dec2 mem2 ev2 H2). reflexivity.
Qed.

Lemma decode_int_needs_four_bytes :
  Serialization.needs_four_bytes Serialization.decode_int.
Proof.
  intros mem buf remaining. unfold Serialization.decode_int.
  destruct (remaining <? 4) eqn:Hlt.
  - apply Z.ltb_lt in Hlt. tauto.
  - apply Z.ltb_ge in Hlt. split; [discriminate | lia].
Qed.

Lemma decode_int_reads_four_bytes :
  Serialization.reads_four_bytes Serialization.decode_int.
Proof.
  intros mem1 mem2 p1 p2 r1 r2 Hr1 Hr2 Hsame.
  unfold Serialization.decode_int.
  destruct (r1 <? 4) eqn:H1; [apply Z.ltb_lt in H1; lia |].
  destruct (r2 <? 4) eqn:H2; [apply Z.ltb_lt in H2; lia |].
  cbn. f_equal. apply load32_ext. exact Hsame.
Qed.

(** X1: [run] never reads the two bytes of the opcode.  Two messages of
    the same length, two bytes at least, with the same bytes after the
    opcode get the same treatment whatever their opcodes are, for every
    decoder that stays within its byte count. *)
Theorem X1_run_ignores_opcode
  (dec : Serialization.Decoder) (mem1 mem2 : Memory) (ev1 ev2 : Event) :
  Serialization.bounded dec ->
  is_size_t (messageLen ev1) ->
  2 <= messageLen ev1 ->
  same_payload mem1 mem2 ev1 ev2 ->
  run dec mem1 ev1 = run dec mem2 ev2.
Proof.
  intros Hdec Hrange Hlen [Hsame_len Hsame_bytes].
  apply run_outcome. unfold decode_payload.
  rewrite (remaining_of_long ev1 Hrange Hlen).
  rewrite (remaining_of_long ev2) by (rewrite <- Hsame_len; assumption).
  rewrite <- Hsame_len.
  apply Hdec. intros i Hi. unfold msgPtr_of, sizeof_int16.
  rewrite <- !Z.add_assoc. apply Hsame_bytes. lia.
Qed.

(** X2: the lengths [run] accepts.  With a decoder that fails exactly when
    fewer than four bytes remain, a message of two to five bytes is answered
    with PROTOCOL_ERROR, and every other message, the longer ones and the
    ones shorter than the opcode alike, reaches the broker's close. *)
Theorem X2_run_rejects_two_to_five_bytes
  (dec : Serialization.Decoder) (mem : Memory) (ev : Event) :
  Serialization.needs_four_bytes dec ->
  is_size_t (messageLen ev) ->
  (2 <= messageLen ev < 6 ->
   trace (run dec mem ev)
   = LogError "Encoding problem with CLOSE message"
     :: CbError Error.PROTOCOL_ERROR "Encoding problem with CLOSE message"
     :: nil)
  /\ (messageLen ev < 2 \/ 6 <= messageLen ev ->
      exists d, decode_payload dec mem ev = Some d
                /\ trace (run dec mem ev)
                   = BrokerClose (Serialization.value d) :: nil).
Proof.
  intros Hdec Hrange. split.
  - intros Hlen.
    assert (Hpay : decode_payload dec mem ev = None).
    { unfold decode_payload. apply Hdec.
      rewrite (remaining_of_long ev Hrange) by lia. lia. }
    rewrite (run_abort_path dec mem ev Hpay). reflexivity.
  - intros Hlen.
    assert (Hrem : 4 <= remaining_of ev).
    { destruct (Z_lt_le_dec (messageLen ev) 2) as [Hshort | Hlong].
      - rewrite (remaining_of_short ev Hrange Hshort), SIZE_MODULUS_value.
        unfold is_size_t in Hrange. lia.
      - rewrite (remaining_of_long ev Hrange Hlong). lia. }
    destruct (decode_payload dec mem ev) as [d |] eqn:Hpay.
    + exists d. split; [reflexivity |].
      rewrite (run_close_path dec mem ev d Hpay). reflexivity.
    + unfold decode_payload in Hpay. apply Hdec in Hpay. lia.
Qed.

(** X3: [run] does not ask that the payload ends after the descriptor.
    With a decoder that reads four bytes, two messages of six bytes or more
    whose descriptors agree get the same treatment, whatever their lengths
    and whatever follows the descriptor. *)
Theorem X3_run_ignores_trailing_bytes
  (dec : Serialization.Decoder) (mem1 mem2 : Memory) (ev1 ev2 : Event) :
  Serialization.reads_four_bytes dec ->
  is_size_t (messageLen ev1) -> is_size_t (messageLen ev2) ->
  6 <= messageLen ev1 -> 6 <= messageLen ev2 ->
  same_descriptor mem1 mem2 ev1 ev2 ->
  run dec mem1 ev1 = run dec mem2 ev2.
Proof.
  intros Hdec Hrange1 Hrange2 Hlen1 Hlen2 Hsame.
  apply run_outcome. unfold decode_payload.
  rewrite (remaining_of_long ev1 Hrange1) by lia.
  rewrite (remaining_of_long ev2 Hrange2) by lia.
  apply Hdec; [lia | lia |].
  intros i Hi. unfold msgPtr_of, sizeof_int16.
  rewrite <- !Z.add_assoc. apply Hsame. lia.
Qed.

(** X4: an error reply is always logged first.  Whenever [run] sends a
    reply through [cb.error], the reply is PROTOCOL_ERROR and the run
    consists of the [HT_ERROR] log of the same text followed by that reply;
    whenever it calls the broker's close, the run consists of that call
    alone, with nothing logged. *)
Theorem X4_error_reply_is_logged_first
  (dec : Serialization.Decoder) (mem : Memory) (ev : Event) :
  (forall code text,
     In (CbError code text) (trace (run dec mem ev)) ->
     code = Error.PROTOCOL_ERROR
     /\ trace (run dec mem ev) = LogError text :: CbError code text :: nil)
  /\ (forall fd,
        In (BrokerClose fd) (trace (run dec mem ev)) ->
        trace (run dec mem ev) = BrokerClose fd :: nil)
  /\ (forall text,
        In (LogError text) (trace (run dec mem ev)) ->
        In (CbError Error.PROTOCOL_ERROR text) (trace (run dec mem ev))).
Proof.
  destruct (decode_payload dec mem ev) as [d |] eqn:Hpay.
  - rewrite (run_close_path dec mem ev d Hpay). cbn.
    split; [| split].
    + intros code text [Hin | []]. discriminate Hin.
    + intros fd [Hin | []]. injection Hin as <-. reflexivity.
    + intros text [Hin | []]. discriminate Hin.
  - rewrite (run_abort_path dec mem ev Hpay). cbn.
    split; [| split].
    + intros code text [Hin | [Hin | []]]; [discriminate Hin |].
      injection Hin as <- <-. split; reflexivity.
    + intros fd [Hin | [Hin | []]]; discriminate Hin.
    + intros text [Hin | [Hin | []]]; [| discriminate Hin].
      injection Hin as <-. right. left. reflexivity.
Qed.

(** X5: the byte count [run] computes is a [size_t] value; adding the two
    bytes of the opcode back, modulo [2 ^ 64], gives [messageLen] again; and
    the subtraction has wrapped exactly when the count is not below
    [messageLen]. *)
Theorem X5_remaining_round_trip (ev : Event) :
  is_size_t (messageLen ev) ->
  is_size_t (remaining_of ev)
  /\ size_add (remaining_of ev) sizeof_int16 = messageLen ev
  /\ (remaining_of ev < messageLen ev <-> 2 <= messageLen ev).
Proof.
  intros Hrange.
  destruct (Z_lt_le_dec (messageLen ev) 2) as [Hshort | Hlong].
  - pose proof (remaining_of_short ev Hrange Hshort) as Hrem.
    unfold is_size_t in *. unfold size_add, wrap_size_t, sizeof_int16.
    rewrite Hrem. rewrite SIZE_MODULUS_value in *.
    split; [lia |]. split; [| lia].
    symmetry. apply Z.mod_unique with (q := 1); lia.
  - pose proof (remaining_of_long ev Hrange Hlong) as Hrem.
    unfold is_size_t in *. unfold size_add, wrap_size_t, sizeof_int16.
    rewrite Hrem. rewrite SIZE_MODULUS_value in *.
    split; [lia |]. split; [| lia].
    replace (messageLen ev - 2 + 2) with (messageLen ev) by lia.
    apply Z.mod_small. lia.
Qed.

Lemma close7_same_payload :
  same_payload close7 close7_other_opcode full_request full_request.
Proof.
  split; [reflexivity |]. cbn. intros i Hi.
  assert (Hcases : i = 2 \/ i = 3 \/ i = 4 \/ i = 5) by lia.
  destruct Hcases as [-> | [-> | [-> | ->]]]; reflexivity.
Qed.

Lemma X1_witness :
  same_payload close7 close7_other_opcode full_request full_request
  /\ close7 4096 <> close7_other_opcode 4096
  /\ run Serialization.decode_int close7 full_request
     = run Serialization.decode_int close7_other_opcode full_request.
Proof.
  refine (conj close7_same_payload (conj _ _)).
  - cbn. discriminate.
  - exact (X1_run_ignores_opcode
             Serialization.decode_int close7 close7_other_opcode
             full_request full_request
             decode_int_bounded full_request_is_size_t full_request_has_opcode
             close7_same_payload).
Defined.

Lemma truncated_request_is_size_t : is_size_t (messageLen truncated_request).
Proof. unfold is_size_t. rewrite SIZE_MODULUS_value. cbn. lia. Qed.

Lemma truncated_request_two_to_five : 2 <= messageLen truncated_request < 6.
Proof. cbn. lia. Qed.

Lemma X2_witness :
  is_size_t (messageLen truncated_request)
  /\ 2 <= messageLen truncated_request < 6
  /\ trace (run Serialization.decode_int zeros truncated_request)
     = LogError "Encoding problem with CLOSE message"
       :: CbError Error.PROTOCOL_ERROR "Encoding problem with CLOSE message"
       :: nil.
Proof.
  exact (conj truncated_request_is_size_t
           (conj truncated_request_two_to_five
              (proj1 (X2_run_rejects_two_to_five_bytes
                        Serialization.decode_int zeros truncated_request
                        decode_int_needs_four_bytes
                        truncated_request_is_size_t)
                     truncated_request_two_to_five))).
Defined.

Lemma padded_request_is_size_t : is_size_t (messageLen padded_request).
Proof. unfold is_size_t. rewrite SIZE_MODULUS_value. cbn. lia. Qed.

Lemma padded_request_long : 6 <= messageLen padded_request.
Proof. cbn. lia. Qed.

Lemma full_request_long : 6 <= messageLen full_request.
Proof. cbn. lia. Qed.

Lemma padded_same_descriptor :
  same_descriptor close7 close7_padded full_request padded_request.
Proof.
  intros i Hi. cbn.
  assert (Hcases : i = 2 \/ i = 3 \/ i = 4 \/ i = 5) by lia.
  destruct Hcases as [-> | [-> | [-> | ->]]]; reflexivity.
Qed.

Lemma X3_witness :
  same_descriptor close7 close7_padded full_request padded_request
  /\ messageLen full_request <> messageLen padded_request
  /\ run Serialization.decode_int close7 full_request
     = run Serialization.decode_int close7_padded padded_request.
Proof.
  refine (conj padded_same_descriptor (conj _ _)).
  - cbn. discriminate.
  - exact (X3_run_ignores_trailing_bytes
             Serialization.decode_int close7 close7_padded
             full_request padded_request
             decode_int_reads_four_bytes
             full_request_is_size_t padded_request_is_size_t
             full_request_long padded_request_long
             padded_same_descriptor).
Defined.

Lemma X5_witness :
  is_size_t (messageLen empty_request)
  /\ is_size_t (remaining_of empty_request)
  /\ size_add (remaining_of empty_request) sizeof_int16
     = messageLen empty_request
  /\ (remaining_of empty_request < messageLen empty_request
      <-> 2 <= messageLen empty_request).
Proof.
  exact (conj empty_request_is_size_t
           (X5_remaining_round_trip empty_request empty_request_is_size_t)).
Defined.

End CloseHandlerFurther.

(** ** More on the handle callbacks *)

Section CallbacksFurther.
Import FileHandleCallback.
Local Open Scope string_scope.

Lemma string_append_cons (ch : ascii) (a b : string) :
  String ch a ++ b = String ch (a ++ b).
Proof. reflexivity. Qed.

Lemma string_append_assoc (a b c : string) : (a ++ b) ++ c = a ++ (b ++ c).
Proof.
  induction a as [| ch a IH]; [reflexivity |].
  rewrite !string_append_cons. f_equal. exact IH.
Qed.

(** Every method writes after what is on [cout] already. *)
Lemma invoke_line (c : Call) (cout : string) : invoke c cout = cout ++ line c.
Proof. destruct c; reflexivity. Qed.

(** A name is printed last, so what is appended to a name is appended to
    the line. *)
Lemma line_name_append (name tail : string) :
  line (CallAttrSet (name ++ tail)) = line (CallAttrSet name) ++ tail
  /\ line (CallAttrDel (name ++ tail)) = line (CallAttrDel name) ++ tail
  /\ line (CallChildNodeAdded (name ++ tail))
     = line (CallChildNodeAdded name) ++ tail
  /\ line (CallChildNodeRemoved (name ++ tail))
     = line (CallChildNodeRemoved name) ++ tail.
Proof. repeat split. Qed.

(** X8: names are printed as they are.  The line of any call can ride in
    the name of the call before it: a call followed by another prints what
    one call prints whose name ends with the other's line, so the text on
    [cout] does not tell how many calls were made. *)
Theorem X8_name_can_carry_a_line (c : Call) (name cout : string) :
  run_calls (CallAttrSet name :: c :: nil) cout
  = run_calls (CallAttrSet (name ++ line c) :: nil) cout
  /\ run_calls (CallAttrDel name :: c :: nil) cout
     = run_calls (CallAttrDel (name ++ line c) :: nil) cout
  /\ run_calls (CallChildNodeAdded name :: c :: nil) cout
     = run_calls (CallChildNodeAdded (name ++ line c) :: nil) cout
  /\ run_calls (CallChildNodeRemoved name :: c :: nil) cout
     = run_calls (CallChildNodeRemoved (name ++ line c) :: nil) cout.
Proof.
  destruct (line_name_append name (line c)) as (Hset & Hdel & Hadd & Hrem).
  unfold run_calls. cbn [fold_left].
  rewrite !invoke_line, Hset, Hdel, Hadd, Hrem.
  repeat split; apply string_append_assoc.
Qed.

End CallbacksFurther.

(** ** The DestroySession handler and the callback's event mask *)

Section TeardownAndRegistration.
Import LockManager Master MasterExamples.

Implicit Types (s : State) (sid hid : nat).

(** [DestroySession] tears down the session it names and nothing else. *)
Lemma destroy_session_torn_down sid s :
  torn_down sid s (destroy_session sid s).2.
Proof.
  unfold destroy_session, torn_down.
  destruct (sessions s !! sid) as [ses0 |] eqn:Hses0; cbn [snd].
  - split; [| split].
    + intros ses [= <-]. split.
      * rewrite retire_sessions_lookup, Hses0. cbn.
        rewrite bool_decide_eq_true_2 by set_solver. reflexivity.
      * intros hid Hown. apply eq_None_not_Some. intros [h Hh].
        apply retire_handles_lookup in Hh as [Hh Hout].
        unfold owner in Hown. rewrite Hh in Hown. cbn in Hown.
        injection Hown as Hown. apply Hout. set_solver.
    + intros sid' Hne. rewrite retire_sessions_lookup.
      rewrite bool_decide_eq_false_2 by set_solver.
      destruct (sessions s !! sid'); reflexivity.
    + intros hid h Hh Hne. apply retire_handles_lookup.
      split; [exact Hh | set_solver].
  - split; [| split].
    + intros ses Hses. discriminate Hses.
    + intros sid' _. reflexivity.
    + intros hid h Hh _. exact Hh.
Qed.

(** C7: the constructor of [RequestHandlerDestroySession] stores the master
    pointer and the session id it is given, unchanged; so, when [run] later
    performs the teardown, it works on the master at that address alone, and
    there it tears down the session of that id and no other: the session
    becomes DESTROYED and loses its handles, every other session and the
    handles of every other session stay as they were. *)
Theorem C7_teardown_targets_the_given_session
  (master session_id : Z) (heap : gmap Z State) (s : State) :
  heap !! master = Some s →
  RequestHandlerDestroySession.m_master
    (RequestHandlerDestroySession.new master session_id) = master
  ∧ RequestHandlerDestroySession.m_session_id
      (RequestHandlerDestroySession.new master session_id) = session_id
  ∧ (∀ other, other ≠ master →
       RequestHandlerDestroySession.run
         (RequestHandlerDestroySession.new master session_id) heap !! other
       = heap !! other)
  ∧ ∃ s',
      RequestHandlerDestroySession.run
        (RequestHandlerDestroySession.new master session_id) heap !! master
      = Some s'
      ∧ torn_down (Z.to_nat session_id) s s'.
Proof.
  intros Hheap. unfold RequestHandlerDestroySession.run. cbn.
  split; [reflexivity |]. split; [reflexivity |]. split.
  - intros other Hne. by rewrite lookup_alter_ne.
  - exists (destroy_session (Z.to_nat session_id) s).2. split.
    + rewrite lookup_alter_eq, Hheap. reflexivity.
    + apply destroy_session_torn_down.
Qed.

Lemma one_master_lookup : one_master !! 4096%Z = Some before_expiry.
Proof. reflexivity. Qed.

Lemma C7_witness :
  one_master !! 4096%Z = Some before_expiry
  ∧ ∃ s',
      RequestHandlerDestroySession.run
        (RequestHandlerDestroySession.new 4096 1) one_master !! 4096%Z
      = Some s'
      ∧ torn_down 1 before_expiry s'.
Proof.
  exact (conj one_master_lookup
           (proj2 (proj2 (proj2
              (C7_teardown_targets_the_given_session
                 4096 1 one_master before_expiry one_master_lookup))))).
Defined.

(** The run behind the witness: session 1 is DESTROYED and its handle is
    gone from the table and from the wait-queue of "/a"; session 0 keeps its
    lease, its handle and the lock. *)
Example teardown_of_session_1 :
  (λ s', (liveness <$> sessions s' !! 1, liveness <$> sessions s' !! 0,
          h_session <$> handles s' !! 1, h_session <$> handles s' !! 0,
          wait_queue (lock_of s' "/a"),
          map_to_list (holders (lock_of s' "/a"))))
    <$> RequestHandlerDestroySession.run
          (RequestHandlerDestroySession.new 4096 1) one_master !! 4096%Z
  = Some (Some DESTROYED, Some CONNECTED, None, Some 0, [],
          [(0, EXCLUSIVE)]).
Proof. vm_compute. reflexivity. Qed.

(** C8: constructing a [FileHandleCallback] with a mask hands that mask to
    the [HandleCallback] base as it is; so, when a node is opened with the
    callback and the open succeeds, the event-interest mask registered with
    the new handle is the mask the caller gave, and no other handle is
    touched. *)
Theorem C8_registered_event_mask_is_the_callers
  (eventMask : Z) (sid : nat) (path : string) (flags : OpenMode)
  (s s' : State) (hid : nat) :
  Client.open sid path flags (FileHandleCallback.new eventMask) s
  = (Opened hid, s') →
  FileHandleCallback.base (FileHandleCallback.new eventMask)
  = HandleCallback.new eventMask
  ∧ (∃ h, handles s' !! hid = Some h
          ∧ h_session h = sid ∧ h_path h = path
          ∧ om_event_mask (h_mode h) = eventMask)
  ∧ (∀ hid', hid' ≠ hid → handles s' !! hid' = handles s !! hid').
Proof.
  unfold Client.open, open. intros Hopen.
  destruct (negb (connected s sid)); [discriminate Hopen |].
  destruct (negb _); [discriminate Hopen |].
  injection Hopen as <- <-. cbn.
  split; [reflexivity |]. split.
  - eexists. split; [apply lookup_insert_eq |]. cbn. auto.
  - intros hid' Hne. by rewrite lookup_insert_ne.
Qed.

Lemma after_callback_open_succeeds :
  Client.open 1 "/b" lock_mode (FileHandleCallback.new 5) before_expiry
  = (Opened 2, after_callback_open.2).
Proof. vm_compute. reflexivity. Qed.

Lemma C8_witness :
  Client.open 1 "/b" lock_mode (FileHandleCallback.new 5) before_expiry
  = (Opened 2, after_callback_open.2)
  ∧ ∃ h, handles after_callback_open.2 !! 2 = Some h
         ∧ h_session h = 1 ∧ h_path h = "/b"
         ∧ om_event_mask (h_mode h) = 5%Z.
Proof.
  exact (conj after_callback_open_succeeds
           (proj1 (proj2
              (C8_registered_event_mask_is_the_callers
                 5 1 "/b" lock_mode before_expiry after_callback_open.2 2
                 after_callback_open_succeeds)))).
Defined.

(** An open that fails registers nothing. *)
Lemma failed_open_registers_nothing
  (eventMask : Z) (sid : nat) (path : string) (flags : OpenMode)
  (s s' : State) (e : Failure) :
  Client.open sid path flags (FileHandleCallback.new eventMask) s
  = (Failed e, s') →
  s' = s.
Proof.
  unfold Client.open, open. intros Hopen.
  destruct (negb (connected s sid)); [by injection Hopen |].
  destruct (negb _); [by injection Hopen | discriminate Hopen].
Qed.

End TeardownAndRegistration.
